(** * Gemini Live voice client: the streaming and turn-management engine

    A shallow embedding of [src/App.tsx] (the [App] component: its React
    state, its refs and the callbacks it registers with the live channel,
    the capture node and the playback nodes, the persistence of the
    history) together with the types of [types.ts] and the components
    [StatusIndicator] and [ChatHistory], and the properties of the engine
    proved over it.

    Conventions of the embedding.
    - A JavaScript string is the list of its UTF-16 code units.
    - React state is a record; [setX v] and [setX (prev => ...)] are applied
      in program order (the state a later render shows is the result of
      applying the queued updates in that order).  A variable that a
      callback reads from the enclosing render ([currentInput],
      [currentOutput]) is NOT in that record: it belongs to the closure of
      the callback, see [Closure].
    - A ref is a field that is read and written in place.
    - The Web Audio objects and the channel live in an environment record
      [Env]: the table of the buffer-source nodes created so far, the clock
      of the output context, the sends requested on the channel.
    - The clock of the output context and the durations of the buffers are
      counted in sample frames of that context (created with
      [sampleRate: 24000], so one unit is 1/24000 s); the code holds the
      same quantities as seconds in JavaScript numbers, whose rounding is
      not modelled.
    - An [async] callback is a coroutine: it runs to its next [await], and
      is resumed by a later event.
    - Every click on the start button is a call of [startConversation]
      of its own; the calls made before go on, see [Sys]. *)

From Stdlib Require Import ZArith NArith List Bool String Ascii Strings.Byte Lia.
From stdpp Require Import base gmap sets list.

Open Scope Z_scope.

(** ** JavaScript strings *)

Abbreviation jsstring := (list N).

(** A literal of the source, as code units. *)
Definition lit (s : string) : jsstring :=
  map N_of_ascii (list_ascii_of_string s).

(** [if (s)] on a string: the empty string is the only falsy one. *)
Definition truthy {A} (s : list A) : bool :=
  match s with
  | [] => false
  | _ :: _ => true
  end.

(** ECMAScript [WhiteSpace] and [LineTerminator] code points, which
    [String.prototype.trim] removes. *)
Definition isWhiteSpace (c : N) : bool :=
  ((c =? 0x9) || (c =? 0xA) || (c =? 0xB) || (c =? 0xC) || (c =? 0xD)
   || (c =? 0x20) || (c =? 0xA0) || (c =? 0x1680)
   || ((0x2000 <=? c) && (c <=? 0x200A))
   || (c =? 0x2028) || (c =? 0x2029) || (c =? 0x202F) || (c =? 0x205F)
   || (c =? 0x3000) || (c =? 0xFEFF))%N.

Fixpoint trimStart (s : jsstring) : jsstring :=
  match s with
  | [] => []
  | c :: s' => if isWhiteSpace c then trimStart s' else s
  end.

Definition trimEnd (s : jsstring) : jsstring := rev (trimStart (rev s)).

Definition trim (s : jsstring) : jsstring := trimEnd (trimStart s).

(** [arr.slice(-n)]: the last [n] elements (all of them when there are
    fewer), in order. *)
Definition slice_last {A} (n : nat) (l : list A) : list A :=
  drop (length l - n)%nat l.

(** ** types.ts *)

Inductive ConnectionStatus := DISCONNECTED | CONNECTING | CONNECTED | ERROR.

Inductive TalkMode := CONTINUOUS | PTT.

Inductive Sender := user | model.

Record Message := mkMessage {
  id : jsstring;
  sender : Sender;
  text : jsstring;
  timestamp : jsstring
}.

#[global] Instance ConnectionStatus_eq_dec : EqDecision ConnectionStatus.
Proof. solve_decision. Defined.

#[global] Instance TalkMode_eq_dec : EqDecision TalkMode.
Proof. solve_decision. Defined.

#[global] Instance Sender_eq_dec : EqDecision Sender.
Proof. solve_decision. Defined.

(** ** The wall clock

    [Date.now()] and [new Date().toISOString()] are reads of the wall
    clock; a [WallClock] is what one construction of a [Message] reads:
    the decimal rendering of [Date.now()] and the ISO rendering of
    [new Date()]. *)

Record WallClock := mkWallClock {
  dateNow : jsstring;
  isoString : jsstring
}.

(** ** Inbound messages ([LiveServerMessage] of the channel library)

    Only the fields [onmessage] reads.  An optional field is an [option];
    an optional boolean that the code tests for truthiness is a [bool]
    (absent is [false]). *)

Record Transcription := mkTranscription { tr_text : jsstring }.

(** [inlineData.data] is the base64 text of the payload; the model keeps
    the bytes it stands for (the empty payload is the empty text, the one
    falsy value of [part.inlineData?.data] besides absence). *)
Record Blob := mkBlob { data : list byte }.

Record Part := mkPart { inlineData : option Blob }.

Record Content := mkContent { parts : option (list Part) }.

Record ServerContent := mkServerContent {
  outputTranscription : option Transcription;
  inputTranscription : option Transcription;
  turnComplete : bool;
  modelTurn : option Content;
  interrupted : bool
}.

Record LiveServerMessage := mkLiveServerMessage {
  serverContent : option ServerContent
}.

(** ** Web Audio objects *)

(** A decoded buffer: mono, one 16-bit sample per frame. *)
Record AudioBuffer := mkAudioBuffer { samples : list Z }.

(** [audioBuffer.duration], in frames of the 24 kHz context. *)
Definition duration (b : AudioBuffer) : Z := Z.of_nat (length (samples b)).

(** An [AudioBufferSourceNode]: its buffer, the [when] of its [start]
    call if it was started, and whether [stop()] was called on it. *)
Record SourceNode := mkSourceNode {
  buffer : AudioBuffer;
  startedAt : option Z;
  stopped : bool
}.

(** [source.start(when)] called at device time [calledAt]: the source
    begins to play at [when], or at once when [when] has passed. *)
Definition beginsAt (when calledAt : Z) : Z := Z.max when calledAt.

(** A block of captured samples, as [onaudioprocess] receives it; the
    model identifies the block by the number of the capture event. *)
Record Frame := mkFrame { frameNo : nat }.

(** An argument of [session.sendRealtimeInput]: [{ media: blob }] for
    the blob made of a captured frame, or [{ text }]. *)
Inductive RealtimeInput :=
| Media (f : Frame)
| Text (t : jsstring).

(** ** services/audioService.ts *)

(** Modelled from the spec: the sample format of an audio payload,
    16-bit signed little-endian PCM (the decoder of
    services/audioService.ts is not among the sources). *)
Fixpoint int16_le (bs : list byte) : list Z :=
  match bs with
  | lo :: hi :: bs' =>
      let u := Z.of_N (Byte.to_N lo) + 256 * Z.of_N (Byte.to_N hi) in
      (if u <? 32768 then u else u - 65536) :: int16_le bs'
  | _ => []
  end.

(** Modelled from the spec: [decode] and [decodeAudioData] of
    services/audioService.ts, which is not among the sources.  The
    payload is 16-bit signed little-endian PCM; the decoder fails when
    the payload is not a whole number of 16-bit samples, and otherwise
    yields a buffer of one frame per sample at the output rate (the
    rescaling of a sample by 1/32768 is left out: [samples] keeps the
    integers). *)
Definition decodeAudioData (payload : list byte) : option AudioBuffer :=
  if Nat.even (length payload)
  then Some (mkAudioBuffer (int16_le payload))
  else None.

(** ** The state of the [App] component *)

(** The [useState] cells (the settings cells, which the engine reads
    only at connection time, are left out). *)
Record ReactState := mkReactState {
  status : ConnectionStatus;
  messages : list Message;
  currentInput : jsstring;
  currentOutput : jsstring;
  isModelSpeaking : bool;
  talkMode : TalkMode;
  isPTTPressed : bool;
  textInput : jsstring
}.

(** The [useRef] cells.  A ref that holds an object or [null] is a
    [bool]: [true] when [.current] is the object.  [sourcesRef] holds the
    nodes by their index in the node table of the environment. *)
Record Refs := mkRefs {
  nextStartTimeRef : Z;
  sourcesRef : gset nat;
  activeSessionRef : bool;
  scriptProcessorRef : bool;
  micStreamRef : bool;
  talkModeRef : TalkMode;
  isPTTPressedRef : bool
}.

(** What the component acts on. *)
Record Env := mkEnv {
  (** every [ctx.createBufferSource()] so far, in creation order *)
  nodes : list SourceNode;
  (** [audioContextOutRef.current.currentTime] *)
  currentTime : Z;
  (** the sends requested, oldest first: the arguments with which
      [sendRealtimeInput] is called (line 243) or with which its call
      is queued on the session promise (line 137; the call is made once
      the promise is fulfilled, and never if it is rejected) *)
  sent : list RealtimeInput;
  (** [ai.live.connect] was called, and [session.close()] was not
      since *)
  channelOpen : bool;
  (** the script processor that was stored last in
      [scriptProcessorRef] is connected *)
  capturing : bool;
  (** the tracks of the stream that was stored last in [micStreamRef]
      have not been stopped *)
  micLive : bool
}.

Record App := mkApp {
  ui : ReactState;
  refs : Refs;
  env : Env
}.

(** *** Field updates *)

Definition map_ui (f : ReactState -> ReactState) (st : App) : App :=
  mkApp (f (ui st)) (refs st) (env st).

Definition map_refs (f : Refs -> Refs) (st : App) : App :=
  mkApp (ui st) (f (refs st)) (env st).

Definition map_env (f : Env -> Env) (st : App) : App :=
  mkApp (ui st) (refs st) (f (env st)).

Definition setStatus (v : ConnectionStatus) : App -> App :=
  map_ui (fun u => mkReactState v (messages u) (currentInput u)
    (currentOutput u) (isModelSpeaking u) (talkMode u) (isPTTPressed u)
    (textInput u)).

(** [setMessages(prev => f prev)] *)
Definition setMessages (f : list Message -> list Message) : App -> App :=
  map_ui (fun u => mkReactState (status u) (f (messages u)) (currentInput u)
    (currentOutput u) (isModelSpeaking u) (talkMode u) (isPTTPressed u)
    (textInput u)).

(** [setCurrentInput(prev => f prev)] *)
Definition setCurrentInput (f : jsstring -> jsstring) : App -> App :=
  map_ui (fun u => mkReactState (status u) (messages u) (f (currentInput u))
    (currentOutput u) (isModelSpeaking u) (talkMode u) (isPTTPressed u)
    (textInput u)).

(** [setCurrentOutput(prev => f prev)] *)
Definition setCurrentOutput (f : jsstring -> jsstring) : App -> App :=
  map_ui (fun u => mkReactState (status u) (messages u) (currentInput u)
    (f (currentOutput u)) (isModelSpeaking u) (talkMode u) (isPTTPressed u)
    (textInput u)).

Definition setIsModelSpeaking (v : bool) : App -> App :=
  map_ui (fun u => mkReactState (status u) (messages u) (currentInput u)
    (currentOutput u) v (talkMode u) (isPTTPressed u) (textInput u)).

Definition setTalkMode (v : TalkMode) : App -> App :=
  map_ui (fun u => mkReactState (status u) (messages u) (currentInput u)
    (currentOutput u) (isModelSpeaking u) v (isPTTPressed u) (textInput u)).

Definition setIsPTTPressed (v : bool) : App -> App :=
  map_ui (fun u => mkReactState (status u) (messages u) (currentInput u)
    (currentOutput u) (isModelSpeaking u) (talkMode u) v (textInput u)).

Definition setTextInput (v : jsstring) : App -> App :=
  map_ui (fun u => mkReactState (status u) (messages u) (currentInput u)
    (currentOutput u) (isModelSpeaking u) (talkMode u) (isPTTPressed u) v).

Definition set_nextStartTimeRef (v : Z) : App -> App :=
  map_refs (fun r => mkRefs v (sourcesRef r) (activeSessionRef r)
    (scriptProcessorRef r) (micStreamRef r) (talkModeRef r)
    (isPTTPressedRef r)).

Definition set_sourcesRef (v : gset nat) : App -> App :=
  map_refs (fun r => mkRefs (nextStartTimeRef r) v (activeSessionRef r)
    (scriptProcessorRef r) (micStreamRef r) (talkModeRef r)
    (isPTTPressedRef r)).

Definition set_activeSessionRef (v : bool) : App -> App :=
  map_refs (fun r => mkRefs (nextStartTimeRef r) (sourcesRef r) v
    (scriptProcessorRef r) (micStreamRef r) (talkModeRef r)
    (isPTTPressedRef r)).

Definition set_scriptProcessorRef (v : bool) : App -> App :=
  map_refs (fun r => mkRefs (nextStartTimeRef r) (sourcesRef r)
    (activeSessionRef r) v (micStreamRef r) (talkModeRef r)
    (isPTTPressedRef r)).

Definition set_micStreamRef (v : bool) : App -> App :=
  map_refs (fun r => mkRefs (nextStartTimeRef r) (sourcesRef r)
    (activeSessionRef r) (scriptProcessorRef r) v (talkModeRef r)
    (isPTTPressedRef r)).

Definition set_gateRefs (m : TalkMode) (p : bool) : App -> App :=
  map_refs (fun r => mkRefs (nextStartTimeRef r) (sourcesRef r)
    (activeSessionRef r) (scriptProcessorRef r) (micStreamRef r) m p).

Definition set_nodes (v : list SourceNode) : App -> App :=
  map_env (fun e => mkEnv v (currentTime e) (sent e) (channelOpen e)
    (capturing e) (micLive e)).

Definition set_currentTime (v : Z) : App -> App :=
  map_env (fun e => mkEnv (nodes e) v (sent e) (channelOpen e)
    (capturing e) (micLive e)).

Definition set_sent (v : list RealtimeInput) : App -> App :=
  map_env (fun e => mkEnv (nodes e) (currentTime e) v (channelOpen e)
    (capturing e) (micLive e)).

Definition set_channelOpen (v : bool) : App -> App :=
  map_env (fun e => mkEnv (nodes e) (currentTime e) (sent e) v
    (capturing e) (micLive e)).

Definition set_capturing (v : bool) : App -> App :=
  map_env (fun e => mkEnv (nodes e) (currentTime e) (sent e)
    (channelOpen e) v (micLive e)).

Definition set_micLive (v : bool) : App -> App :=
  map_env (fun e => mkEnv (nodes e) (currentTime e) (sent e)
    (channelOpen e) (capturing e) v).

(** ** Closures

    [startConversation] is a plain function of the component body, made
    anew by every render, and the callbacks it hands to
    [ai.live.connect] are made inside it.  The names [currentInput] and
    [currentOutput] that [onmessage] reads (lines 152-153) are the
    [const]s of the render whose [startConversation] was called: they
    are fixed when the session is started, and no [setCurrentInput] or
    [setCurrentOutput] changes them.  A [Closure] is that part of the
    lexical environment of the callbacks. *)

Record Closure := mkClosure {
  cl_currentInput : jsstring;
  cl_currentOutput : jsstring
}.

(** The environment that the callbacks made in state [st] close over. *)
Definition closure_of (st : App) : Closure :=
  mkClosure (currentInput (ui st)) (currentOutput (ui st)).

(** ** Effects of a render *)

(** Lines 41-44: after a render in which [talkMode] or [isPTTPressed]
    changed, the effect copies both into their refs. *)
Definition syncGateRefs (st : App) : App :=
  set_gateRefs (talkMode (ui st)) (isPTTPressed (ui st)) st.

(** ** Playback nodes *)

(** [source.stop()]: an error on a node that was never started. *)
Definition node_stop (n : SourceNode) : option SourceNode :=
  match startedAt n with
  | Some _ => Some (mkSourceNode (buffer n) (startedAt n) true)
  | None => None
  end.

(** [try { source.stop(); } catch (e) {}] on the node of index [i]. *)
Definition try_stop (i : nat) (ns : list SourceNode) : list SourceNode :=
  match ns !! i with
  | Some n =>
      match node_stop n with
      | Some n' => <[i:=n']> ns
      | None => ns
      end
  | None => ns
  end.

(** [sources.forEach(s => { try { s.stop(); } catch (e) {} })].  The
    calls act on different nodes, so the order of the visit does not
    matter. *)
Definition stopAll (srcs : gset nat) (ns : list SourceNode) : list SourceNode :=
  foldr try_stop ns (elements srcs).

(** Lines 195-198 (and 91-94): stop every active source, clear the set,
    reset the cursor, clear the speaking flag. *)
Definition interrupt (st : App) : App :=
  let st := set_nodes (stopAll (sourcesRef (refs st)) (nodes (env st))) st in
  let st := set_sourcesRef ∅ st in
  let st := set_nextStartTimeRef 0 st in
  setIsModelSpeaking false st.

(** Lines 182-185: the ['ended'] listener of the node of index [i]. *)
Definition onended (i : nat) (st : App) : App :=
  let st := set_sourcesRef (sourcesRef (refs st) ∖ {[ i ]}) st in
  if decide (size (sourcesRef (refs st)) = 0%nat)
  then setIsModelSpeaking false st
  else st.

(** ** stopConversation (lines 78-96) *)

Definition stopConversation (st : App) : App :=
  let st :=
    if activeSessionRef (refs st)
    then set_activeSessionRef false (set_channelOpen false st)
    else st in
  let st :=
    if scriptProcessorRef (refs st)
    then set_scriptProcessorRef false (set_capturing false st)
    else st in
  let st :=
    if micStreamRef (refs st)
    then set_micStreamRef false (set_micLive false st)
    else st in
  let st := interrupt st in
  setStatus DISCONNECTED st.

(** ** startConversation (lines 98-229), by its suspension points *)

(** Lines 100-118, up to the [await] of [getUserMedia]. *)
Definition startConversation_begin (st : App) : App :=
  setStatus CONNECTING st.

(** Lines 120-221: the microphone stream arrived; it is stored and
    [ai.live.connect] is called. *)
Definition startConversation_connect (st : App) : App :=
  let st := set_micStreamRef true (set_micLive true st) in
  set_channelOpen true st.

(** Lines 223-224: [sessionPromise] was fulfilled. *)
Definition startConversation_resolved (st : App) : App :=
  set_activeSessionRef true st.

(** Lines 225-228: an [await] of the [try] block was rejected. *)
Definition startConversation_catch (st : App) : App :=
  setStatus ERROR st.

(** ** Callbacks of the channel *)

(** Lines 127-142.  The node calls [onaudioprocess] from the moment it
    is connected. *)
Definition onopen (st : App) : App :=
  let st := setStatus CONNECTED st in
  let st := set_scriptProcessorRef true st in
  set_capturing true st.

(** Lines 133-139.  The send is queued on the [sessionPromise] of the
    call that made the processor; the queue keeps the order of the
    frames. *)
Definition onaudioprocess (f : Frame) (st : App) : App :=
  if bool_decide (talkModeRef (refs st) = CONTINUOUS)
     || isPTTPressedRef (refs st)
  then set_sent (sent (env st) ++ [Media f]) st
  else st.

(** Lines 201-205. *)
Definition onerror (st : App) : App :=
  let st := setStatus ERROR st in
  stopConversation st.

(** Lines 206-210. *)
Definition onclose (st : App) : App :=
  let st := setStatus DISCONNECTED st in
  stopConversation st.

(** *** onmessage (lines 143-200) *)

(** [message.serverContent?.f] for a boolean field. *)
Definition sc_flag (f : ServerContent -> bool) (msg : LiveServerMessage) : bool :=
  match serverContent msg with
  | Some sc => f sc
  | None => false
  end.

(** [message.serverContent?.f] for an optional field. *)
Definition sc_field {A} (f : ServerContent -> option A)
    (msg : LiveServerMessage) : option A :=
  match serverContent msg with
  | Some sc => f sc
  | None => None
  end.

(** Lines 145-149. *)
Definition onTranscription (msg : LiveServerMessage) (st : App) : App :=
  match sc_field outputTranscription msg with
  | Some t => setCurrentOutput (fun prev => prev ++ tr_text t) st
  | None =>
      match sc_field inputTranscription msg with
      | Some t => setCurrentInput (fun prev => prev ++ tr_text t) st
      | None => st
      end
  end.

(** The entries that lines 157-158 spread into the new history. *)
Definition turnMessages (uText mText : jsstring) (wu wm : WallClock)
    : list Message :=
  (if truthy uText
   then [mkMessage (dateNow wu ++ lit "-u") user uText (isoString wu)]
   else [])
  ++
  (if truthy mText
   then [mkMessage (dateNow wm ++ lit "-m") model mText (isoString wm)]
   else []).

(** Lines 151-163.  [uText] and [mText] are read from the closure. *)
Definition onTurnComplete (cl : Closure) (wu wm : WallClock)
    (msg : LiveServerMessage) (st : App) : App :=
  if sc_flag turnComplete msg then
    let uText := cl_currentInput cl in
    let mText := cl_currentOutput cl in
    let st :=
      if truthy uText || truthy mText
      then setMessages
             (fun prev => slice_last 50 (prev ++ turnMessages uText mText wu wm))
             st
      else st in
    let st := setCurrentInput (fun _ => []) st in
    setCurrentOutput (fun _ => []) st
  else st.

(** A call of [onmessage] that is suspended at the [await] of line 177:
    the payload being decoded, the parts of the loop still to visit, and
    the [interrupted] flag of its message, tested after the loop. *)
Record Task := mkTask {
  awaiting : list byte;
  remaining : list Part;
  then_interrupted : bool
}.

(** How a run of the [async] callback leaves it. *)
Inductive Outcome :=
| Suspended (t : Task)
| Fulfilled
| Rejected.

(** Lines 171-175: the part of the loop body before the [await]. *)
Definition beginChunk (st : App) : App :=
  let st := setIsModelSpeaking true st in
  set_nextStartTimeRef
    (Z.max (nextStartTimeRef (refs st)) (currentTime (env st))) st.

(** Lines 178-189: the part of the loop body after the [await].  The
    new node is the next entry of the node table. *)
Definition playBuffer (audioBuffer : AudioBuffer) (st : App) : App :=
  let source := length (nodes (env st)) in
  let st :=
    set_nodes
      (nodes (env st)
       ++ [mkSourceNode audioBuffer (Some (nextStartTimeRef (refs st))) false])
      st in
  let st :=
    set_nextStartTimeRef
      (nextStartTimeRef (refs st) + duration audioBuffer) st in
  set_sourcesRef (sourcesRef (refs st) ∪ {[ source ]}) st.

(** Lines 168-199 from a position of the loop onwards: to the next
    [await], or through the test of [interrupted] to the end. *)
Fixpoint audioLoop (ps : list Part) (intr : bool) (st : App) : App * Outcome :=
  match ps with
  | [] => (if intr then interrupt st else st, Fulfilled)
  | part :: rest =>
      match inlineData part with
      | Some b =>
          if truthy (data b)
          then (beginChunk st, Suspended (mkTask (data b) rest intr))
          else audioLoop rest intr st
      | None => audioLoop rest intr st
      end
  end.

(** [message.serverContent?.modelTurn?.parts], nothing to visit when
    absent. *)
Definition messageParts (msg : LiveServerMessage) : list Part :=
  match sc_field modelTurn msg with
  | Some c =>
      match parts c with
      | Some ps => ps
      | None => []
      end
  | None => []
  end.

(** A call of [onmessage], up to its first [await]. *)
Definition onmessage (cl : Closure) (wu wm : WallClock)
    (msg : LiveServerMessage) (st : App) : App * Outcome :=
  let st := onTranscription msg st in
  let st := onTurnComplete cl wu wm msg st in
  audioLoop (messageParts msg) (sc_flag interrupted msg) st.

(** The decode that a suspended call awaits has settled: a failure is
    thrown at the [await], nothing catches it and the promise of the
    call is rejected; otherwise the call goes on from line 178. *)
Definition resume (t : Task) (st : App) : App * Outcome :=
  match decodeAudioData (awaiting t) with
  | Some audioBuffer =>
      audioLoop (remaining t) (then_interrupted t) (playBuffer audioBuffer st)
  | None => (st, Rejected)
  end.

(** The loop body for one decoded buffer when nothing else runs during
    the [await]: the scheduling of one buffer. *)
Definition schedule (audioBuffer : AudioBuffer) (st : App) : App :=
  playBuffer audioBuffer (beginChunk st).

(** ** Handlers of the user interface *)

(** Lines 231-245.  The form holds the [handleSendText] of the last
    render, so the [textInput] it reads is the value of the state. *)
Definition handleSendText (w : WallClock) (st : App) : App :=
  if negb (truthy (trim (textInput (ui st))))
     || negb (activeSessionRef (refs st))
  then st
  else
    let textToSend := trim (textInput (ui st)) in
    let st :=
      setMessages
        (fun prev =>
           prev ++ [mkMessage (dateNow w ++ lit "-tu") user textToSend
                      (isoString w)])
        st in
    let st := set_sent (sent (env st) ++ [Text textToSend]) st in
    setTextInput [] st.

(** Lines 247-248. *)
Definition handlePTTDown (st : App) : App := setIsPTTPressed true st.
Definition handlePTTUp (st : App) : App := setIsPTTPressed false st.

(** Line 354: the start (or retry) button is rendered; otherwise the
    text form, the talk button and the stop button are. *)
Definition startShown (st : App) : bool :=
  bool_decide (status (ui st) = DISCONNECTED)
  || bool_decide (status (ui st) = ERROR).

(** The clock of the output context advances. *)
Definition tick (dt : N) (st : App) : App :=
  set_currentTime (currentTime (env st) + Z.of_N dt) st.

(** ** The component as an event system *)

(** Where a call of [startConversation] is suspended. *)
Inductive StartPhase :=
| AwaitingMic (cl : Closure)
| AwaitingSession.

(** A call of [startConversation]: where it is suspended, if it still
    is, and the closure of the callbacks it registered with its channel,
    while that channel delivers events. *)
Record Call := mkCall {
  callStarting : option StartPhase;
  callChannel : option Closure
}.

(** Every click on the start button makes a call of
    [startConversation], with its own stream, callbacks and session
    promise, and nothing cancels the calls made before: their promises
    settle and their channels deliver events as before.  One call is in
    focus, the others are kept aside. *)
Record Sys := mkSys {
  appState : App;
  (** where the call in focus is suspended, if it still is *)
  starting : option StartPhase;
  (** the closure of the callbacks that the call in focus registered
      with its channel *)
  channel : option Closure;
  (** the suspended calls of [onmessage], by number of the delivery *)
  tasks : gmap nat Task;
  (** the messages delivered so far, in arrival order *)
  delivered : list LiveServerMessage;
  (** the payloads whose buffers were handed to [source.start], in the
      order of the calls, each with the number of its delivery *)
  scheduled : list (nat * list byte);
  (** the calls that are not in focus *)
  others : list Call;
  (** a script processor was created (line 130): its [onaudioprocess]
      is called with the blocks that are captured *)
  opened : bool
}.

(** The events.  [MicGranted], [StartRejected] and [SessionResolved]
    settle a promise that a call of [startConversation] awaits, and
    [ChannelOpen], [ChannelMessage], [ChannelError] and [ChannelClose]
    are the callbacks of the channel of a call: as events they are
    those of the call in focus.  [Focus k] brings call [k] of the
    others into focus: it is no event of the program, it tells whose
    events follow, so that the events of the calls interleave in any
    order.  The decode of a payload settles ([Decoded]), a source ends,
    a block is captured, the user acts, the clock of the output context
    advances. *)
Inductive Event :=
| ClickStart
| MicGranted
| StartRejected
| SessionResolved
| ChannelOpen
| ChannelMessage (msg : LiveServerMessage) (wu wm : WallClock)
| Decoded (h : nat)
| ChannelError
| ChannelClose
| SourceEnded (i : nat)
| AudioProcess (f : Frame)
| ClickStop
| ClickTalkMode (m : TalkMode)
| PTTDown
| PTTUp
| TypeText (v : jsstring)
| SubmitText (w : WallClock)
| Tick (dt : N)
| Focus (k : nat).

Definition with_app (f : App -> App) (s : Sys) : Sys :=
  mkSys (f (appState s)) (starting s) (channel s) (tasks s) (delivered s)
    (scheduled s) (others s) (opened s).

(** The bookkeeping of the suspended calls after call [h] ran to
    outcome [o]. *)
Definition settle (h : nat) (o : Outcome) (ts : gmap nat Task) : gmap nat Task :=
  match o with
  | Suspended t => <[h:=t]> ts
  | Fulfilled | Rejected => delete h ts
  end.

(** The calls kept aside once a new call takes the focus: the call
    that was in focus joins them when it is still suspended or its
    channel still delivers events. *)
Definition setAside (s : Sys) : list Call :=
  match starting s, channel s with
  | None, None => others s
  | _, _ => others s ++ [mkCall (starting s) (channel s)]
  end.

(** One event.  A click reaches its handler only when its button is
    rendered (line 354); a promise of a call settles only while the
    call awaits it, and a callback of a channel is called only once
    the channel is being connected.  [onaudioprocess] is called once a
    script processor exists: [disconnect()] (line 84) takes the node
    from the graph and leaves its handler, and the handler has no test
    of its own, so a block captured after the teardown is still
    gated and, when the gate lets it pass, queued for sending. *)
Definition step (e : Event) (s : Sys) : Sys :=
  let st := appState s in
  match e with
  | ClickStart =>
      if startShown st
      then mkSys (startConversation_begin st) (Some (AwaitingMic (closure_of st)))
             None (tasks s) (delivered s) (scheduled s) (setAside s) (opened s)
      else s
  | MicGranted =>
      match starting s with
      | Some (AwaitingMic cl) =>
          mkSys (startConversation_connect st) (Some AwaitingSession) (Some cl)
            (tasks s) (delivered s) (scheduled s) (others s) (opened s)
      | _ => s
      end
  | StartRejected =>
      match starting s with
      | Some _ =>
          mkSys (startConversation_catch st) None (channel s) (tasks s)
            (delivered s) (scheduled s) (others s) (opened s)
      | None => s
      end
  | SessionResolved =>
      match starting s with
      | Some AwaitingSession =>
          mkSys (startConversation_resolved st) None (channel s) (tasks s)
            (delivered s) (scheduled s) (others s) (opened s)
      | _ => s
      end
  | ChannelOpen =>
      match channel s with
      | Some _ =>
          mkSys (onopen st) (starting s) (channel s) (tasks s) (delivered s)
            (scheduled s) (others s) true
      | None => s
      end
  | ChannelMessage msg wu wm =>
      match channel s with
      | Some cl =>
          let h := length (delivered s) in
          let '(st', o) := onmessage cl wu wm msg st in
          mkSys st' (starting s) (channel s) (settle h o (tasks s))
            (delivered s ++ [msg]) (scheduled s) (others s) (opened s)
      | None => s
      end
  | Decoded h =>
      match tasks s !! h with
      | Some t =>
          let '(st', o) := resume t st in
          mkSys st' (starting s) (channel s) (settle h o (tasks s))
            (delivered s)
            (match decodeAudioData (awaiting t) with
             | Some _ => scheduled s ++ [(h, awaiting t)]
             | None => scheduled s
             end)
            (others s) (opened s)
      | None => s
      end
  | ChannelError =>
      match channel s with
      | Some _ => with_app onerror s
      | None => s
      end
  | ChannelClose =>
      match channel s with
      | Some _ =>
          mkSys (onclose st) (starting s) None (tasks s) (delivered s)
            (scheduled s) (others s) (opened s)
      | None => s
      end
  | SourceEnded i =>
      if decide (i < length (nodes (env st)))%nat
      then with_app (onended i) s
      else s
  | AudioProcess f =>
      if capturing (env st) || opened s
      then with_app (onaudioprocess f) s
      else s
  | ClickStop =>
      if startShown st then s else with_app stopConversation s
  | ClickTalkMode m =>
      with_app (fun st => syncGateRefs (setTalkMode m st)) s
  | PTTDown =>
      if startShown st || bool_decide (talkMode (ui st) = CONTINUOUS)
      then s
      else with_app (fun st => syncGateRefs (handlePTTDown st)) s
  | PTTUp =>
      if startShown st || bool_decide (talkMode (ui st) = CONTINUOUS)
      then s
      else with_app (fun st => syncGateRefs (handlePTTUp st)) s
  | TypeText v =>
      if startShown st then s else with_app (setTextInput v) s
  | SubmitText w =>
      if startShown st then s else with_app (handleSendText w) s
  | Tick dt => with_app (tick dt) s
  | Focus k =>
      match others s !! k with
      | Some c =>
          mkSys st (callStarting c) (callChannel c) (tasks s) (delivered s)
            (scheduled s)
            (<[k:=mkCall (starting s) (channel s)]> (others s)) (opened s)
      | None => s
      end
  end.

Definition run (evs : list Event) (s : Sys) : Sys :=
  foldl (fun s e => step e s) s evs.

(** The component after its first render and effects. *)
Definition initialApp : App :=
  mkApp
    (mkReactState DISCONNECTED [] [] [] false CONTINUOUS false [])
    (mkRefs 0 ∅ false false false CONTINUOUS false)
    (mkEnv [] 0 [] false false false).

Definition initialSys : Sys :=
  mkSys initialApp None None ∅ [] [] [] false.

(** ** Notions used in the statements *)

(** The payload a part contributes to the loop of lines 168-191, if it
    passes the test of line 169. *)
Definition chunkOf (part : Part) : option (list byte) :=
  match inlineData part with
  | Some b => if truthy (data b) then Some (data b) else None
  | None => None
  end.

(** The audio chunks of a list of parts, in order. *)
Definition chunks (ps : list Part) : list (list byte) := omap chunkOf ps.

(** The audio chunks a message carries, in order. *)
Definition audioChunks (msg : LiveServerMessage) : list (list byte) :=
  chunks (messageParts msg).

(** Every chunk that arrived, in arrival order. *)
Definition arrived (s : Sys) : list (list byte) :=
  concat (map audioChunks (delivered s)).

(** The chunks that were scheduled, in the order of the [start] calls. *)
Definition scheduledChunks (s : Sys) : list (list byte) := (scheduled s).*2.

(** The chunks of delivery [h] that were scheduled, in that order. *)
Definition scheduledBy (h : nat) (s : Sys) : list (list byte) :=
  (filter (fun e => e.1 = h) (scheduled s)).*2.

(** The claim of scheduling in arrival order: the chunks that were
    scheduled, in the order of the [start] calls, follow the order in
    which they arrived. *)
Definition inArrivalOrder (s : Sys) : Prop :=
  scheduledChunks s `sublist_of` arrived s.

(** The bookkeeping of the deliveries is consistent: of a delivery that
    is suspended, the chunks scheduled so far, the chunk being decoded
    and the chunks still to visit make up the chunks of its message, in
    order; of one that is over, the chunks scheduled are a prefix of
    them; and nothing is recorded for a delivery that did not happen. *)
Definition ledgerOk (ts : gmap nat Task) (dl : list LiveServerMessage)
    (sc : list (nat * list byte)) : Prop :=
  forall h,
    match dl !! h with
    | Some msg =>
        match ts !! h with
        | Some t =>
            (filter (fun e => e.1 = h) sc).*2
            ++ awaiting t :: chunks (remaining t)
            = audioChunks msg
        | None => (filter (fun e => e.1 = h) sc).*2 `prefix_of` audioChunks msg
        end
    | None => ts !! h = None /\ (filter (fun e => e.1 = h) sc).*2 = []
    end.

(** The capture gate as the specification words it: always in continuous
    mode, only while pressed in push-to-talk mode. *)
Definition shouldTransmit (mode : TalkMode) (pressed : bool) : bool :=
  match mode with
  | CONTINUOUS => true
  | PTT => pressed
  end.

(** The refs of the gate hold the values of the state. *)
Definition gateSynced (st : App) : Prop :=
  talkModeRef (refs st) = talkMode (ui st)
  /\ isPTTPressedRef (refs st) = isPTTPressed (ui st).

(** [n'] is [n], possibly stopped since. *)
Definition node_after (n n' : SourceNode) : Prop :=
  buffer n' = buffer n
  /\ startedAt n' = startedAt n
  /\ (stopped n = true -> stopped n' = true).

(** The four cells the gate depends on. *)
Definition gateCells (st : App) : TalkMode * bool * TalkMode * bool :=
  (talkMode (ui st), isPTTPressed (ui st),
   talkModeRef (refs st), isPTTPressedRef (refs st)).

(** The buffers of the nodes, in creation order, are the decoded
    chunks of the record, in the order of the record. *)
Definition mirrors (s : Sys) : Prop :=
  Some <$> (buffer <$> nodes (env (appState s)))
  = decodeAudioData <$> scheduledChunks s.

(** What holds of the component along every run: the device clock is
    not negative, every member of [sourcesRef] is a started node of the
    table, and the script processor of the ref is connected whenever
    the status is [CONNECTED]. *)
Definition sane (st : App) : Prop :=
  0 <= currentTime (env st)
  /\ (forall i, i ∈ sourcesRef (refs st) ->
       exists n, nodes (env st) !! i = Some n /\ is_Some (startedAt n))
  /\ (status (ui st) = CONNECTED -> capturing (env st) = true).

(** The cells [sane] depends on. *)
Definition saneCells (st : App)
    : Z * gset nat * list SourceNode * ConnectionStatus * bool :=
  (currentTime (env st), sourcesRef (refs st), nodes (env st),
   status (ui st), capturing (env st)).

(** ** Scenarios *)

Module Scenario.

Definition clock : WallClock :=
  mkWallClock (lit "1700000000000") (lit "2023-11-14T22:13:20.000Z").

(** The events of a successful connection. *)
Definition connect : list Event :=
  [ClickStart; MicGranted; ChannelOpen; SessionResolved].

Definition connected : Sys := run connect initialSys.

Definition content (o i : option Transcription) (tc : bool)
    (ps : option (list Part)) (intr : bool) : LiveServerMessage :=
  mkLiveServerMessage
    (Some (mkServerContent o i tc (option_map (fun l => mkContent (Some l)) ps)
             intr)).

Definition inputFragment (t : string) : LiveServerMessage :=
  content None (Some (mkTranscription (lit t))) false None false.

Definition outputFragment (t : string) : LiveServerMessage :=
  content (Some (mkTranscription (lit t))) None false None false.

Definition bothFragments (i o : string) : LiveServerMessage :=
  content (Some (mkTranscription (lit o))) (Some (mkTranscription (lit i)))
    false None false.

Definition turnCompleteSignal : LiveServerMessage :=
  content None None true None false.

Definition interruptedSignal : LiveServerMessage :=
  content None None false None true.

Definition audio (ps : list (list byte)) : LiveServerMessage :=
  content None None false (Some (map (fun p => mkPart (Some (mkBlob p))) ps))
    false.

(** Two well-formed payloads (one and two samples) and a malformed one
    (three bytes). *)
Definition chunkA : list byte := [x01; x00]%byte.
Definition chunkB : list byte := [x02; x00; x03; x00]%byte.
Definition chunkBad : list byte := [x01; x02; x03]%byte.

(** A session in which the user said "hello" and the model answered
    "hi there", before the turn is completed. *)
Definition midTurn : Sys :=
  run [ChannelMessage (inputFragment "hello") clock clock;
       ChannelMessage (outputFragment "hi there") clock clock]
    connected.

(** Fifty texts typed and submitted in a connected session: a history
    of fifty entries. *)
Definition fiftySubmits : list Event :=
  flat_map (fun k => [TypeText [N.of_nat (65 + k)]; SubmitText clock])
    (seq 0 50).

Definition fullHistory : Sys := run fiftySubmits connected.

(** " hi " typed in a connected session, and while the session is still
    being set up. *)
Definition typed : Sys := run [TypeText (lit " hi ")] connected.

Definition typedConnecting : Sys :=
  run [ClickStart; MicGranted; TypeText (lit " hi ")] initialSys.

(** The buffers of the two well-formed payloads. *)
Definition bufferA : AudioBuffer := mkAudioBuffer [1].
Definition bufferB : AudioBuffer := mkAudioBuffer [2; 3].

(** A payload of twenty samples of silence, and its buffer. *)
Definition chunkLong : list byte := replicate 40 x00%byte.
Definition bufferLong : AudioBuffer := mkAudioBuffer (replicate 20 0).

(** A connected session in which, at device time 10, chunk A arrived
    and was scheduled. *)
Definition playing : Sys :=
  run [Tick 10; ChannelMessage (audio [chunkA]) clock clock; Decoded 0]
    connected.

End Scenario.

(** ** Notions used in the further properties *)

(** The node table [ns'] continues [ns]: every node of [ns] is still
    there, possibly stopped since. *)
Definition nodes_continue (ns ns' : list SourceNode) : Prop :=
  forall i n, ns !! i = Some n ->
    exists n', ns' !! i = Some n' /\ node_after n n'.

(** The flags of the capture and of the microphone, with the refs that
    hold the objects they are flags of. *)
Definition heldCells (st : App) : bool * bool * bool * bool :=
  (capturing (env st), scriptProcessorRef (refs st),
   micLive (env st), micStreamRef (refs st)).

(** Line 341: the [isActive] of the visualizer of the user. *)
Definition userVisualizerActive (st : App) : bool :=
  bool_decide (status (ui st) = CONNECTED)
  && (if bool_decide (talkMode (ui st) = CONTINUOUS)
      then negb (isModelSpeaking (ui st))
      else isPTTPressed (ui st)).




(** The events of delivery number [h] when it is processed alone while
    the clock of the output context runs: the message, then for each
    audio chunk the time that passes while it is decoded and the
    settling of the decode. *)
Definition deliveryTimed (h : nat)
    (d : LiveServerMessage * WallClock * WallClock) (dts : list N)
    : list Event :=
  ChannelMessage d.1.1 d.1.2 d.2
  :: flat_map (fun dt => [Tick dt; Decoded h]) dts.

(** The [when] of the [start] calls of a delivery that is processed
    alone, from its first suspension on: [cursor] and [now] are the
    cursor and the device time when the decode of a chunk is awaited,
    [dts] the times the decodes take.  The cursor moves by the duration
    of the buffer (line 188) and is raised to the device time when the
    loop comes to the next chunk (line 175). *)
Fixpoint whens (cursor now : Z) (bs : list AudioBuffer) (dts : list N)
    : list Z :=
  match bs, dts with
  | b :: bs', dt :: dts' =>
      cursor
      :: whens (Z.max (cursor + duration b) (now + Z.of_N dt))
           (now + Z.of_N dt) bs' dts'
  | _, _ => []
  end.

(** The time by which the events of a run advance the device clock. *)
Definition elapsed (evs : list Event) : Z :=
  foldr (fun e acc =>
           match e with
           | Tick dt => Z.of_N dt + acc
           | _ => acc
           end) 0 evs.

(** What of a node no event changes: its buffer and the [when] of its
    [start] call. *)
Definition fixedPart (n : SourceNode) : AudioBuffer * option Z :=
  (buffer n, startedAt n).

(** ** components/StatusIndicator.tsx *)

(** The values of the [ConnectionStatus] enum of types.ts. *)
Definition statusValue (v : ConnectionStatus) : jsstring :=
  match v with
  | DISCONNECTED => lit "disconnected"
  | CONNECTING => lit "connecting"
  | CONNECTED => lit "connected"
  | ERROR => lit "error"
  end.

Record Indicator := mkIndicator {
  color : jsstring;
  label : jsstring
}.

(** Lines 10-15: the object literal, its computed keys set in order (a
    key set twice would keep the later entry). *)
Definition config : gmap (list N) Indicator :=
  <[statusValue ERROR := mkIndicator (lit "bg-red-500") (lit "Connection Error")]>
  (<[statusValue CONNECTED :=
       mkIndicator (lit "bg-green-500 shadow-[0_0_8px_rgba(34,197,94,0.6)]")
         (lit "Live")]>
  (<[statusValue CONNECTING :=
       mkIndicator (lit "bg-yellow-400 animate-pulse") (lit "Connecting...")]>
  (<[statusValue DISCONNECTED :=
       mkIndicator (lit "bg-slate-400") (lit "Disconnected")]> ∅))).

(** Line 17: [config[status]]; the destructuring throws on
    [undefined]. *)
Definition statusIndicator (v : ConnectionStatus) : option Indicator :=
  config !! statusValue v.

(** ** components/ChatHistory.tsx (in the sources, the second part of
    StatusIndicator.tsx, whose line numbers are used) *)

(** [items-end] or [items-start]. *)
Inductive Side := AtEnd | AtStart.

(** A bubble of the transcript: its side, its text, and whether it is
    one of the two bubbles of the turn in progress. *)
Record Bubble := mkBubble {
  side : Side;
  bubbleText : jsstring;
  inProgress : bool
}.

Record ChatView := mkChatView {
  placeholder : bool;
  bubbles : list Bubble
}.

(** Lines 47-90, without the time of day under a message (it is
    rendered in the locale of the browser). *)
Definition chatHistory (msgs : list Message) (curIn curOut : jsstring)
    : ChatView :=
  mkChatView
    (bool_decide (length msgs = 0%nat) && negb (truthy curIn)
     && negb (truthy curOut))
    (map (fun m =>
            mkBubble (if bool_decide (sender m = user) then AtEnd else AtStart)
              (text m) false)
       msgs
     ++ (if truthy curIn then [mkBubble AtEnd curIn true] else [])
     ++ (if truthy curOut then [mkBubble AtStart curOut true] else [])).

(** Line 350: the transcript as [App] renders it. *)
Definition chatView (st : App) : ChatView :=
  chatHistory (messages (ui st)) (currentInput (ui st))
    (currentOutput (ui st)).

(** ** Persistence of the history (lines 52-76) *)

#[global] Instance Message_eq_dec : EqDecision Message.
Proof. solve_decision. Defined.

(** What [localStorage] holds under [STORAGE_KEY]: the text that
    [JSON.stringify] makes of a history (which [JSON.parse] reads back
    as that history), or a text that was not written by the component
    and that does not parse to an array. *)
Inductive StoredItem :=
| HistoryJson (ms : list Message)
| OtherText.

(** The component in its page: the event system, and the storage. *)
Record Page := mkPage {
  pageSys : Sys;
  storage : option StoredItem
}.

Definition pageMessages (p : Page) : list Message :=
  messages (ui (appState (pageSys p))).

(** Lines 53-63: the effect of the first render. *)
Definition loadEffect (p : Page) : Page :=
  match storage p with
  | Some (HistoryJson parsed) =>
      mkPage (with_app (setMessages (fun _ => parsed)) (pageSys p)) (storage p)
  | Some OtherText => p
  | None => p
  end.

(** Lines 65-69: the effect of a render in which [messages] changed. *)
Definition saveEffect (p : Page) : Page :=
  if decide (0 < length (pageMessages p))%nat
  then mkPage (pageSys p) (Some (HistoryJson (pageMessages p)))
  else p.

(** Lines 71-76, with the answer to [window.confirm]. *)
Definition clearHistory (confirmed : bool) (p : Page) : Page :=
  if confirmed
  then mkPage (with_app (setMessages (fun _ => [])) (pageSys p)) None
  else p.

(** The page after the component is mounted: the first render has an
    empty history, so its saving effect writes nothing; the loading
    effect sets the stored history, and the render that follows runs
    the saving effect. *)
Definition mount (stored : option StoredItem) : Page :=
  saveEffect (loadEffect (mkPage initialSys stored)).

Inductive PageEvent :=
| SessionEvent (e : Event)
| ClickClear (confirmed : bool).

(** An event of the page, followed by the saving effect when the
    history is not what it was (every [setMessages] of the handlers
    makes a new array; when its contents are the same, the effect
    writes nothing new). *)
Definition pageStep (e : PageEvent) (p : Page) : Page :=
  let p' :=
    match e with
    | SessionEvent e => mkPage (step e (pageSys p)) (storage p)
    | ClickClear confirmed => clearHistory confirmed p
    end in
  if decide (pageMessages p' = pageMessages p) then p' else saveEffect p'.

Definition pageRun (evs : list PageEvent) (p : Page) : Page :=
  foldl (fun p e => pageStep e p) p evs.

(** The storage agrees with the history: it holds the history, or the
    history is empty and the storage holds nothing the component
    wrote. *)
Definition storageAgrees (p : Page) : Prop :=
  match storage p with
  | Some (HistoryJson ms) => ms = pageMessages p
  | Some OtherText => pageMessages p = []
  | None => pageMessages p = []
  end.

(** * Properties *)

(** ** Proof steps used throughout *)

(** Case analysis on every [match] of the goal. *)
Ltac case_matches :=
  repeat match goal with
    | |- context [match ?x with _ => _ end] => destruct x eqn:?
    end.

(** Rewrite [H] with the equation that names the result of a call of
    [onmessage] or of its continuation. *)
Ltac call_result H :=
  match goal with
  | Heq : onmessage _ _ _ _ _ = _ |- _ => rewrite Heq in H
  | Heq : resume _ _ = _ |- _ => rewrite Heq in H
  end.

(** Case analysis on what lines 144-163 do for a message. *)
Ltac case_accounting cl msg :=
  unfold onTurnComplete, onTranscription;
  destruct (sc_flag turnComplete msg);
  [destruct (truthy (cl_currentInput cl) || truthy (cl_currentOutput cl))|];
  destruct (sc_field outputTranscription msg);
  destruct (sc_field inputTranscription msg).

(** ** Basic facts about the field updates *)

Lemma slice_last_length {A} (n : nat) (l : list A) :
  (length (slice_last n l) <= n)%nat.
Proof. unfold slice_last. rewrite length_drop. lia. Qed.

Lemma slice_last_suffix {A} (n : nat) (l : list A) :
  slice_last n l `suffix_of` l.
Proof. unfold slice_last. apply suffix_drop. Qed.

Lemma slice_last_short {A} (n : nat) (l : list A) :
  (length l <= n)%nat -> slice_last n l = l.
Proof.
  intros Hle. unfold slice_last.
  replace (length l - n)%nat with 0%nat by lia. reflexivity.
Qed.

Lemma truthy_false {A} (s : list A) : truthy s = false <-> s = [].
Proof. destruct s; simpl; split; congruence. Qed.

Lemma truthy_true {A} (s : list A) : truthy s = true <-> s <> [].
Proof. destruct s; simpl; split; congruence. Qed.

(** ** Typed text (handleSendText) *)

(** C10.  Submitting typed text is guarded.  When the trimmed text is
    empty or no session handle is held, the submission changes nothing:
    no message is appended and nothing is sent.  Otherwise exactly one
    user message carrying the trimmed text is appended to the history,
    the trimmed text is sent on the channel, and the text input is
    cleared. *)
Theorem handleSendText_guarded (w : WallClock) (st : App) :
  (trim (textInput (ui st)) = [] \/ activeSessionRef (refs st) = false ->
   handleSendText w st = st)
  /\
  (trim (textInput (ui st)) <> [] -> activeSessionRef (refs st) = true ->
   exists m,
     messages (ui (handleSendText w st)) = messages (ui st) ++ [m]
     /\ sender m = user
     /\ text m = trim (textInput (ui st))
     /\ sent (env (handleSendText w st))
        = sent (env st) ++ [Text (trim (textInput (ui st)))]
     /\ textInput (ui (handleSendText w st)) = []).
Proof.
  unfold handleSendText. split.
  - intros [Hempty | Hnone].
    + rewrite Hempty. reflexivity.
    + rewrite Hnone, orb_true_r. reflexivity.
  - intros Hne Hact. apply truthy_true in Hne. rewrite Hne, Hact. simpl.
    eexists. repeat split; reflexivity.
Qed.

Lemma handleSendText_guarded_witness :
  handleSendText Scenario.clock (appState Scenario.typedConnecting)
  = appState Scenario.typedConnecting
  /\
  exists m,
    messages (ui (handleSendText Scenario.clock (appState Scenario.typed)))
    = messages (ui (appState Scenario.typed)) ++ [m]
    /\ sender m = user
    /\ text m = lit "hi"
    /\ sent (env (handleSendText Scenario.clock (appState Scenario.typed)))
       = sent (env (appState Scenario.typed)) ++ [Text (lit "hi")]
    /\ textInput (ui (handleSendText Scenario.clock (appState Scenario.typed)))
       = [].
Proof.
  split.
  - apply (handleSendText_guarded Scenario.clock
             (appState Scenario.typedConnecting)).
    right. reflexivity.
  - apply (handleSendText_guarded Scenario.clock (appState Scenario.typed)).
    + vm_compute. discriminate.
    + reflexivity.
Defined.

(** ** Transcript fragments (lines 144-149) *)

(** C5, as the code has it.  A delivery appends to one accumulator at
    most: an output fragment, when present, is concatenated onto
    [currentOutput] and [currentInput] is left as it is, also when the
    delivery carries an input fragment too; an input fragment is
    concatenated onto [currentInput] only when the delivery carries no
    output fragment; without fragments both stay as they are. *)
Theorem onTranscription_one_side (msg : LiveServerMessage) (st : App) :
  let st' := onTranscription msg st in
  match sc_field outputTranscription msg, sc_field inputTranscription msg with
  | Some o, _ =>
      currentOutput (ui st') = currentOutput (ui st) ++ tr_text o
      /\ currentInput (ui st') = currentInput (ui st)
  | None, Some i =>
      currentInput (ui st') = currentInput (ui st) ++ tr_text i
      /\ currentOutput (ui st') = currentOutput (ui st)
  | None, None => st' = st
  end.
Proof.
  unfold onTranscription.
  destruct (sc_field outputTranscription msg) as [o|];
    [| destruct (sc_field inputTranscription msg) as [i|]];
    simpl; auto.
Qed.

(** C5 as stated fails: a delivery that carries the input fragment
    "hello" and the output fragment "hi" appends the output fragment
    only. *)
Lemma onTranscription_both_drops_input :
  let st := appState Scenario.connected in
  let st' := onTranscription (Scenario.bothFragments "hello" "hi") st in
  currentOutput (ui st') = currentOutput (ui st) ++ lit "hi"
  /\ currentInput (ui st') = currentInput (ui st)
  /\ currentInput (ui st') <> currentInput (ui st) ++ lit "hello".
Proof. vm_compute. repeat split; discriminate. Qed.

(** Fragments of one side that arrive in successive deliveries are
    concatenated in arrival order. *)
Lemma onTranscription_inputs_in_order (ts : list jsstring) (st : App) :
  currentInput
    (ui (foldl (fun st t =>
                  onTranscription
                    (mkLiveServerMessage
                       (Some (mkServerContent None (Some (mkTranscription t))
                                false None false))) st) st ts))
  = currentInput (ui st) ++ concat ts.
Proof.
  revert st. induction ts as [|t ts IH]; intros st; simpl.
  - by rewrite app_nil_r.
  - rewrite IH. simpl. by rewrite <- app_assoc.
Qed.

(** ** Turn finalization (lines 151-163) *)

(** What a turn-complete signal does to the history and to the
    accumulators: the texts come from the closure. *)
Lemma onTurnComplete_effect (cl : Closure) (wu wm : WallClock)
    (msg : LiveServerMessage) (st : App) :
  sc_flag turnComplete msg = true ->
  let st' := onTurnComplete cl wu wm msg st in
  messages (ui st')
  = (if truthy (cl_currentInput cl) || truthy (cl_currentOutput cl)
     then slice_last 50
            (messages (ui st)
             ++ turnMessages (cl_currentInput cl) (cl_currentOutput cl) wu wm)
     else messages (ui st))
  /\ currentInput (ui st') = []
  /\ currentOutput (ui st') = [].
Proof.
  intros Hflag. unfold onTurnComplete. rewrite Hflag.
  destruct (truthy (cl_currentInput cl) || truthy (cl_currentOutput cl));
    simpl; auto.
Qed.

(** Turn finalization keeps the history within fifty entries. *)
Lemma onTurnComplete_capped (cl : Closure) (wu wm : WallClock)
    (msg : LiveServerMessage) (st : App) :
  (length (messages (ui st)) <= 50)%nat ->
  (length (messages (ui (onTurnComplete cl wu wm msg st))) <= 50)%nat.
Proof.
  intros Hlen. unfold onTurnComplete.
  destruct (sc_flag turnComplete msg); [|exact Hlen].
  destruct (truthy (cl_currentInput cl) || truthy (cl_currentOutput cl));
    simpl; [apply slice_last_length | exact Hlen].
Qed.

(** C3, on the code.  In a session started from the initial state the
    user's "hello" and the model's "hi there" are accumulated, and the
    turn-complete signal then appends nothing to the history and clears
    both accumulators: the texts that line 152-153 read are those of the
    render in which the session was started, which are empty. *)
Theorem turnComplete_appends_nothing :
  let s := Scenario.midTurn in
  let s' :=
    step (ChannelMessage Scenario.turnCompleteSignal Scenario.clock
            Scenario.clock) s in
  channel s = Some (mkClosure [] [])
  /\ currentInput (ui (appState s)) = lit "hello"
  /\ currentOutput (ui (appState s)) = lit "hi there"
  /\ messages (ui (appState s')) = messages (ui (appState s))
  /\ messages (ui (appState s')) = []
  /\ currentInput (ui (appState s')) = []
  /\ currentOutput (ui (appState s')) = [].
Proof. vm_compute. repeat split. Qed.

(** ** The cap of the history *)

(** C4, on the code.  With fifty entries in the history, a submitted
    text leaves fifty-one: [handleSendText] appends without the
    [slice(-50)] of the turn finalization. *)
Theorem handleSendText_exceeds_cap :
  let st := appState (run [TypeText (lit "hi")] Scenario.fullHistory) in
  length (messages (ui st)) = 50%nat
  /\ length (messages (ui (handleSendText Scenario.clock st))) = 51%nat.
Proof. vm_compute. split; reflexivity. Qed.

(** ** Stopping the playback nodes *)

Lemma node_after_refl (n : SourceNode) : node_after n n.
Proof. by repeat split. Qed.

Lemma node_after_trans (n1 n2 n3 : SourceNode) :
  node_after n1 n2 -> node_after n2 n3 -> node_after n1 n3.
Proof.
  intros (Hb1 & Hs1 & Ht1) (Hb2 & Hs2 & Ht2).
  repeat split; [congruence | congruence | auto].
Qed.

Lemma try_stop_length (j : nat) (ns : list SourceNode) :
  length (try_stop j ns) = length ns.
Proof.
  unfold try_stop. destruct (ns !! j) as [n|]; [|done].
  destruct (node_stop n); [apply length_insert | done].
Qed.

Lemma try_stop_lookup (j i : nat) (ns : list SourceNode) (n : SourceNode) :
  ns !! i = Some n ->
  exists n',
    try_stop j ns !! i = Some n'
    /\ node_after n n'
    /\ (i = j -> is_Some (startedAt n) -> stopped n' = true).
Proof.
  intros Hi. unfold try_stop.
  destruct (decide (i = j)) as [->|Hne].
  - rewrite Hi. unfold node_stop.
    destruct (startedAt n) as [w|] eqn:Hst.
    + eexists. split.
      * apply list_lookup_insert_eq. by eapply lookup_lt_Some.
      * simpl. repeat split; auto.
    + exists n. split; [done|]. split; [apply node_after_refl|].
      intros _ [? ?]. discriminate.
  - exists n. split.
    + destruct (ns !! j) as [m|]; [|done].
      destruct (node_stop m); [|done].
      by rewrite list_lookup_insert_ne.
    + split; [apply node_after_refl | done].
Qed.

Lemma stop_each_lookup (l : list nat) (i : nat) (ns : list SourceNode)
    (n : SourceNode) :
  ns !! i = Some n ->
  exists n',
    foldr try_stop ns l !! i = Some n'
    /\ node_after n n'
    /\ (i ∈ l -> is_Some (startedAt n) -> stopped n' = true).
Proof.
  intros Hi. induction l as [|j l IH]; simpl.
  - exists n. split; [done|]. split; [apply node_after_refl|].
    intros Hin. by apply elem_of_nil in Hin.
  - destruct IH as (n1 & Hn1 & Haft1 & Hstop1).
    destruct (try_stop_lookup j i _ _ Hn1) as (n2 & Hn2 & Haft2 & Hstop2).
    exists n2. split; [done|]. split; [by eapply node_after_trans|].
    intros Hin Hstarted. apply elem_of_cons in Hin as [->|Hin].
    + apply Hstop2; [done|]. destruct Haft1 as (_ & -> & _). done.
    + destruct Haft2 as (_ & _ & Hmono). auto.
Qed.

Lemma stopAll_length (srcs : gset nat) (ns : list SourceNode) :
  length (stopAll srcs ns) = length ns.
Proof.
  unfold stopAll. induction (elements srcs) as [|j l IH]; simpl; [done|].
  by rewrite try_stop_length.
Qed.

(** Every started node of the set is stopped by [stopAll], and every
    node keeps its buffer and start time. *)
Lemma stopAll_lookup (srcs : gset nat) (i : nat) (ns : list SourceNode)
    (n : SourceNode) :
  ns !! i = Some n ->
  exists n',
    stopAll srcs ns !! i = Some n'
    /\ node_after n n'
    /\ (i ∈ srcs -> is_Some (startedAt n) -> stopped n' = true).
Proof.
  intros Hi. unfold stopAll.
  destruct (stop_each_lookup (elements srcs) i ns n Hi)
    as (n' & Hn' & Haft & Hstop).
  exists n'. split; [done|]. split; [done|].
  intros Hin. apply Hstop. by apply elem_of_elements.
Qed.

(** ** Channel errors (lines 201-205) *)

(** C6, on the code.  After [onerror] the status is [DISCONNECTED],
    whatever it was: [stopConversation], called after
    [setStatus(ERROR)], ends with [setStatus(DISCONNECTED)].  The
    teardown itself is complete: the session handle, the processor and
    the microphone stream are released (closing the channel, ending the
    capture and stopping the tracks when they were held), the set of
    sources is empty and the cursor is 0. *)
Theorem onerror_ends_disconnected (st : App) :
  let st' := onerror st in
  status (ui st') = DISCONNECTED
  /\ status (ui st') <> ERROR
  /\ activeSessionRef (refs st') = false
  /\ scriptProcessorRef (refs st') = false
  /\ micStreamRef (refs st') = false
  /\ channelOpen (env st')
     = (if activeSessionRef (refs st) then false else channelOpen (env st))
  /\ capturing (env st')
     = (if scriptProcessorRef (refs st) then false else capturing (env st))
  /\ micLive (env st')
     = (if micStreamRef (refs st) then false else micLive (env st))
  /\ sourcesRef (refs st') = ∅
  /\ nextStartTimeRef (refs st') = 0
  /\ isModelSpeaking (ui st') = false.
Proof.
  unfold onerror, stopConversation.
  destruct st as [u [nx srcs act proc mic tm pp] e].
  destruct act, proc, mic; simpl; repeat split; discriminate.
Qed.

(** Along runs: an error signal in a connected session, and one in a
    session that is still connecting, both leave [DISCONNECTED]. *)
Lemma channelError_scenarios :
  status (ui (appState Scenario.connected)) = CONNECTED
  /\ status (ui (appState (step ChannelError Scenario.connected)))
     = DISCONNECTED
  /\ status (ui (appState (run [ClickStart; MicGranted] initialSys)))
     = CONNECTING
  /\ status
       (ui (appState (run [ClickStart; MicGranted; ChannelError] initialSys)))
     = DISCONNECTED.
Proof. vm_compute. repeat split. Qed.

(** ** The playback scheduler (lines 171-189) *)

Lemma schedule_nodes (b : AudioBuffer) (st : App) :
  nodes (env (schedule b st))
  = nodes (env st)
    ++ [mkSourceNode b
          (Some (Z.max (nextStartTimeRef (refs st)) (currentTime (env st))))
          false].
Proof. reflexivity. Qed.

Lemma schedule_cursor (b : AudioBuffer) (st : App) :
  nextStartTimeRef (refs (schedule b st))
  = Z.max (nextStartTimeRef (refs st)) (currentTime (env st)) + duration b.
Proof. reflexivity. Qed.

Lemma schedule_sources (b : AudioBuffer) (st : App) :
  sourcesRef (refs (schedule b st))
  = sourcesRef (refs st) ∪ {[ length (nodes (env st)) ]}.
Proof. reflexivity. Qed.

Lemma schedule_speaking (b : AudioBuffer) (st : App) :
  isModelSpeaking (ui (schedule b st)) = true.
Proof. reflexivity. Qed.

(** One iteration of the loop on a well-formed chunk, when no event
    comes between the suspension and the end of the decode, is the
    scheduling of the decoded buffer; the loop then goes on.  Time that
    passes during the decode changes nothing to it: the cursor was
    raised before the [await], and the rest of the body does not read
    the clock. *)
Lemma loop_iteration (c : list byte) (b : AudioBuffer) (rest : list Part)
    (intr : bool) (st : App) :
  truthy c = true -> decodeAudioData c = Some b ->
  audioLoop (mkPart (Some (mkBlob c)) :: rest) intr st
  = (beginChunk st, Suspended (mkTask c rest intr))
  /\ resume (mkTask c rest intr) (beginChunk st)
     = audioLoop rest intr (schedule b st)
  /\ forall dt,
       resume (mkTask c rest intr) (tick dt (beginChunk st))
       = audioLoop rest intr (tick dt (schedule b st)).
Proof.
  intros Hc Hb. split; [|split].
  - simpl. by rewrite Hc.
  - unfold resume. simpl. by rewrite Hb.
  - intros dt. unfold resume. simpl. by rewrite Hb.
Qed.

(** ** Interruption (lines 194-199) *)

(** A call of [onmessage] whose message has the [interrupted] flag and
    that reaches the end of its loop without suspending ends in
    [interrupt]. *)
Lemma audioLoop_fulfilled (ps : list Part) (intr : bool) (st st' : App) :
  audioLoop ps intr st = (st', Fulfilled) ->
  st' = (if intr then interrupt st else st).
Proof.
  induction ps as [|p ps IH]; simpl.
  - congruence.
  - destruct (inlineData p) as [b|]; [|exact IH].
    destruct (truthy (data b)); [discriminate | exact IH].
Qed.



(** The limit of the above: a chunk whose decode is already in flight
    when the interruption is processed was past line 175 before the
    reset, so when its decode settles its source is started with the
    cursor as the reset left it ([start(0)], which the audio context
    plays at once), and the cursor moves on from 0. *)
Remark in_flight_chunk_after_interrupt :
  let s :=
    run [Tick 10;
         ChannelMessage (Scenario.audio [Scenario.chunkA])
           Scenario.clock Scenario.clock;
         ChannelMessage Scenario.interruptedSignal
           Scenario.clock Scenario.clock;
         Decoded 0]
      Scenario.connected in
  nodes (env (appState s)) = [mkSourceNode Scenario.bufferA (Some 0) false]
  /\ nextStartTimeRef (refs (appState s)) = 1
  /\ currentTime (env (appState s)) = 10.
Proof. vm_compute. repeat split. Qed.

(** ** Runs of the event system *)

Lemma run_cons (e : Event) (evs : list Event) (s : Sys) :
  run (e :: evs) s = run evs (step e s).
Proof. reflexivity. Qed.

Lemma run_app (evs evs' : list Event) (s : Sys) :
  run (evs ++ evs') s = run evs' (run evs s).
Proof. unfold run. apply foldl_app. Qed.

(** Calls of [startConversation] do not cancel one another: after
    Start, End Session and Start again the first call is still
    suspended at [getUserMedia]; when its promise is fulfilled it
    connects and its channel opens like that of the second call, and
    both channels deliver their events. *)
Remark earlier_call_goes_on :
  let s :=
    run [ClickStart; ClickStop; ClickStart; MicGranted; ChannelOpen;
         Focus 0; MicGranted; ChannelOpen]
      initialSys in
  others (run [ClickStart; ClickStop; ClickStart] initialSys)
  = [mkCall (Some (AwaitingMic (mkClosure [] []))) None]
  /\ starting s = Some AwaitingSession
  /\ channel s = Some (mkClosure [] [])
  /\ others s = [mkCall (Some AwaitingSession) (Some (mkClosure [] []))]
  /\ status (ui (appState s)) = CONNECTED.
Proof. vm_compute. repeat split. Qed.

(** A property that every event preserves holds along every run. *)
Lemma run_invariant (P : Sys -> Prop) :
  (forall e s, P s -> P (step e s)) ->
  forall evs s, P s -> P (run evs s).
Proof.
  intros Hstep evs. induction evs as [|e evs IH]; intros s Hs; [exact Hs|].
  rewrite run_cons. apply IH, Hstep, Hs.
Qed.

(** ** The capture gate (lines 38-44 and 133-139) *)

Lemma gateSynced_cells (st st' : App) :
  gateCells st' = gateCells st -> gateSynced st -> gateSynced st'.
Proof.
  unfold gateCells, gateSynced. intros Heq [Hm Hp].
  injection Heq as -> -> -> ->. by split.
Qed.

Lemma interrupt_gateCells (st : App) : gateCells (interrupt st) = gateCells st.
Proof. reflexivity. Qed.

Lemma stopConversation_gateCells (st : App) :
  gateCells (stopConversation st) = gateCells st.
Proof.
  unfold stopConversation.
  destruct st as [u [nx srcs act proc mic tm pp] e].
  destruct act, proc, mic; reflexivity.
Qed.

Lemma audioLoop_gateCells (ps : list Part) (intr : bool) (st : App) :
  gateCells (audioLoop ps intr st).1 = gateCells st.
Proof.
  induction ps as [|p ps IH]; simpl.
  - destruct intr; reflexivity.
  - destruct (inlineData p) as [b|]; [|exact IH].
    destruct (truthy (data b)); [reflexivity | exact IH].
Qed.

Lemma onmessage_gateCells (cl : Closure) (wu wm : WallClock)
    (msg : LiveServerMessage) (st : App) :
  gateCells (onmessage cl wu wm msg st).1 = gateCells st.
Proof.
  unfold onmessage. rewrite audioLoop_gateCells.
  case_accounting cl msg; reflexivity.
Qed.

Lemma resume_gateCells (t : Task) (st : App) :
  gateCells (resume t st).1 = gateCells st.
Proof.
  unfold resume. destruct (decodeAudioData (awaiting t)); [|reflexivity].
  by rewrite audioLoop_gateCells.
Qed.

Lemma handleSendText_gateCells (w : WallClock) (st : App) :
  gateCells (handleSendText w st) = gateCells st.
Proof.
  unfold handleSendText.
  destruct (negb (truthy (trim (textInput (ui st))))
            || negb (activeSessionRef (refs st))); reflexivity.
Qed.

Lemma onended_gateCells (i : nat) (st : App) :
  gateCells (onended i st) = gateCells st.
Proof. unfold onended. case_decide; reflexivity. Qed.

Lemma onaudioprocess_gateCells (f : Frame) (st : App) :
  gateCells (onaudioprocess f st) = gateCells st.
Proof.
  unfold onaudioprocess.
  destruct (bool_decide (talkModeRef (refs st) = CONTINUOUS)
            || isPTTPressedRef (refs st)); reflexivity.
Qed.

(** Every event leaves the refs of the gate equal to the state: the
    handlers that set [talkMode] or [isPTTPressed] are followed by the
    effect of lines 41-44, and nothing else writes the four cells. *)
Lemma step_gateSynced (e : Event) (s : Sys) :
  gateSynced (appState s) -> gateSynced (appState (step e s)).
Proof.
  intros Hs. destruct e; simpl;
    case_matches;
    simpl; try exact Hs; try (split; reflexivity);
    try (eapply gateSynced_cells; [|exact Hs]);
    try reflexivity.
  - pose proof (onmessage_gateCells c wu wm msg (appState s)) as H.
    by call_result H.
  - pose proof (resume_gateCells t (appState s)) as H.
    by call_result H.
  - pose proof (resume_gateCells t (appState s)) as H.
    by call_result H.
  - unfold onerror. by rewrite stopConversation_gateCells.
  - unfold onclose. by rewrite stopConversation_gateCells.
  - apply onended_gateCells.
  - apply onaudioprocess_gateCells.
  - apply stopConversation_gateCells.
  - apply handleSendText_gateCells.
Qed.

Lemma audioLoop_sent (ps : list Part) (intr : bool) (st : App) :
  sent (env (audioLoop ps intr st).1) = sent (env st).
Proof.
  induction ps as [|p ps IH]; simpl.
  - destruct intr; reflexivity.
  - destruct (inlineData p) as [b|]; [|exact IH].
    destruct (truthy (data b)); [reflexivity | exact IH].
Qed.

Lemma onmessage_sent (cl : Closure) (wu wm : WallClock)
    (msg : LiveServerMessage) (st : App) :
  sent (env (onmessage cl wu wm msg st).1) = sent (env st).
Proof.
  unfold onmessage. rewrite audioLoop_sent.
  case_accounting cl msg; reflexivity.
Qed.

Lemma resume_sent (t : Task) (st : App) :
  sent (env (resume t st).1) = sent (env st).
Proof.
  unfold resume. destruct (decodeAudioData (awaiting t)); [|reflexivity].
  by rewrite audioLoop_sent.
Qed.

Lemma stopConversation_sent (st : App) :
  sent (env (stopConversation st)) = sent (env st).
Proof.
  unfold stopConversation.
  destruct st as [u [nx srcs act proc mic tm pp] e].
  destruct act, proc, mic; reflexivity.
Qed.

Lemma onended_sent (i : nat) (st : App) :
  sent (env (onended i st)) = sent (env st).
Proof. unfold onended. destruct (decide _); reflexivity. Qed.

Lemma prefix_of_eq {A} (l l' : list A) : l' = l -> l `prefix_of` l'.
Proof. by intros ->. Qed.

(** What was sent is never taken back: every event leaves the sent
    inputs as they are or appends to them. *)
Lemma step_sent_prefix (e : Event) (s : Sys) :
  sent (env (appState s)) `prefix_of` sent (env (appState (step e s))).
Proof.
  destruct e; simpl;
    case_matches;
    simpl; try reflexivity.
  - pose proof (onmessage_sent c wu wm msg (appState s)) as H.
    call_result H.
    by apply prefix_of_eq.
  - pose proof (resume_sent t (appState s)) as H.
    call_result H.
    by apply prefix_of_eq.
  - pose proof (resume_sent t (appState s)) as H.
    call_result H.
    by apply prefix_of_eq.
  - apply prefix_of_eq, (stopConversation_sent (setStatus ERROR (appState s))).
  - apply prefix_of_eq,
      (stopConversation_sent (setStatus DISCONNECTED (appState s))).
  - apply prefix_of_eq, (onended_sent i (appState s)).
  - unfold onaudioprocess.
    destruct (bool_decide (talkModeRef (refs (appState s)) = CONTINUOUS)
              || isPTTPressedRef (refs (appState s))); simpl;
      [by apply prefix_app_r | reflexivity].
  - apply prefix_of_eq, (stopConversation_sent (appState s)).
  - unfold handleSendText.
    destruct (negb (truthy (trim (textInput (ui (appState s)))))
              || negb (activeSessionRef (refs (appState s)))); simpl;
      [reflexivity | by apply prefix_app_r].
Qed.

Lemma run_sent_prefix (evs : list Event) (s : Sys) :
  sent (env (appState s)) `prefix_of` sent (env (appState (run evs s))).
Proof.
  revert s. induction evs as [|e evs IH]; intros s; [reflexivity|].
  rewrite run_cons. etrans; [apply step_sent_prefix | apply IH].
Qed.

(** The test of line 134 on synced refs is the gate of the
    specification on the state. *)
Lemma onaudioprocess_gate (f : Frame) (st : App) :
  gateSynced st ->
  sent (env (onaudioprocess f st))
  = sent (env st)
    ++ (if shouldTransmit (talkMode (ui st)) (isPTTPressed (ui st))
        then [Media f] else []).
Proof.
  intros [Hm Hp]. unfold onaudioprocess. rewrite Hm, Hp.
  destruct (talkMode (ui st)), (isPTTPressed (ui st)); simpl;
    by rewrite ?app_nil_r.
Qed.

Lemma step_AudioProcess (f : Frame) (s : Sys) :
  step (AudioProcess f) s
  = if capturing (env (appState s)) || opened s
    then with_app (onaudioprocess f) s
    else s.
Proof. reflexivity. Qed.

(** C8.  Along every run of the component, the transmit decision for a
    captured frame is taken on the talk mode and the pressed flag that
    the state holds when the frame is produced, not on what they were
    when the capture was set up: the frame is sent exactly when the
    gate of the specification holds of those values.  So in continuous
    mode every frame captured is sent, in push-to-talk mode a frame is
    sent if and only if the button is pressed at that moment, and
    whatever happens afterwards (a toggle of the button included) leaves
    what was sent for earlier frames untouched. *)
Theorem gate_reads_latest (s0 : Sys) (evs : list Event) (f : Frame) :
  gateSynced (appState s0) ->
  capturing (env (appState (run evs s0))) = true ->
  let st := appState (run evs s0) in
  let s' := step (AudioProcess f) (run evs s0) in
  sent (env (appState s'))
  = sent (env st)
    ++ (if shouldTransmit (talkMode (ui st)) (isPTTPressed (ui st))
        then [Media f] else [])
  /\ (talkMode (ui st) = CONTINUOUS ->
      sent (env (appState s')) = sent (env st) ++ [Media f])
  /\ (talkMode (ui st) = PTT ->
      (sent (env (appState s')) = sent (env st) ++ [Media f]
       <-> isPTTPressed (ui st) = true))
  /\ (forall evs',
        sent (env (appState s'))
        `prefix_of` sent (env (appState (run evs' s')))).
Proof.
  intros Hsync Hcap st s'.
  assert (Hst : gateSynced st).
  { subst st. apply (run_invariant (fun s => gateSynced (appState s)));
      [apply step_gateSynced | exact Hsync]. }
  assert (Hsent : sent (env (appState s'))
                  = sent (env st)
                    ++ (if shouldTransmit (talkMode (ui st))
                             (isPTTPressed (ui st))
                        then [Media f] else [])).
  { subst s'. rewrite step_AudioProcess, Hcap. cbn [orb].
    by apply onaudioprocess_gate. }
  split; [exact Hsent|]. split; [|split].
  - intros Hmode. rewrite Hsent, Hmode. reflexivity.
  - intros Hmode. rewrite Hsent, Hmode. simpl.
    destruct (isPTTPressed (ui st)); split; try done.
    intros Heq. rewrite app_nil_r in Heq.
    apply (f_equal length) in Heq. rewrite length_app in Heq.
    simpl in Heq. lia.
  - intros evs'. apply run_sent_prefix.
Qed.

Lemma gate_reads_latest_witness :
  let held := run (Scenario.connect ++ [ClickTalkMode PTT; PTTDown]) initialSys in
  let released := run (Scenario.connect ++ [ClickTalkMode PTT]) initialSys in
  sent (env (appState (step (AudioProcess (mkFrame 0)) held)))
  = [Media (mkFrame 0)]
  /\ sent (env (appState (step (AudioProcess (mkFrame 0)) released))) = []
  /\ sent (env (appState (step (AudioProcess (mkFrame 1)) Scenario.connected)))
     = [Media (mkFrame 1)].
Proof.
  intros held released.
  assert (Hinit : gateSynced (appState initialSys)) by (split; reflexivity).
  split; [|split].
  - exact (proj1 (gate_reads_latest initialSys
                    (Scenario.connect ++ [ClickTalkMode PTT; PTTDown])
                    (mkFrame 0) Hinit eq_refl)).
  - exact (proj1 (gate_reads_latest initialSys
                    (Scenario.connect ++ [ClickTalkMode PTT]) (mkFrame 0)
                    Hinit eq_refl)).
  - apply (proj1 (proj2 (gate_reads_latest initialSys Scenario.connect
                           (mkFrame 1) Hinit eq_refl))).
    reflexivity.
Defined.

(** ** Order of scheduling (lines 166-191) *)

(** A run of the loop suspends at its first audio chunk, with the later
    parts still to visit, and ends when there is none. *)
Lemma audioLoop_outcome (ps : list Part) (intr : bool) (st : App) :
  match (audioLoop ps intr st).2 with
  | Suspended t => chunks ps = awaiting t :: chunks (remaining t)
  | Fulfilled => chunks ps = []
  | Rejected => False
  end.
Proof.
  induction ps as [|p ps IH]; simpl; [done|].
  unfold chunks in *. simpl. unfold chunkOf at 1 3 5.
  destruct (inlineData p) as [b|]; [|exact IH].
  destruct (truthy (data b)); [reflexivity | exact IH].
Qed.

Lemma onmessage_outcome (cl : Closure) (wu wm : WallClock)
    (msg : LiveServerMessage) (st : App) :
  match (onmessage cl wu wm msg st).2 with
  | Suspended t => audioChunks msg = awaiting t :: chunks (remaining t)
  | Fulfilled => audioChunks msg = []
  | Rejected => False
  end.
Proof. unfold onmessage, audioChunks. apply audioLoop_outcome. Qed.

(** Only deliveries and settled decodes change the bookkeeping. *)
Lemma step_ledger (e : Event) (s : Sys) :
  (tasks (step e s), delivered (step e s), scheduled (step e s))
  = match e with
    | ChannelMessage msg wu wm =>
        match channel s with
        | Some cl =>
            (settle (length (delivered s))
               (onmessage cl wu wm msg (appState s)).2 (tasks s),
             delivered s ++ [msg], scheduled s)
        | None => (tasks s, delivered s, scheduled s)
        end
    | Decoded h =>
        match tasks s !! h with
        | Some t =>
            (settle h (resume t (appState s)).2 (tasks s), delivered s,
             match decodeAudioData (awaiting t) with
             | Some _ => scheduled s ++ [(h, awaiting t)]
             | None => scheduled s
             end)
        | None => (tasks s, delivered s, scheduled s)
        end
    | _ => (tasks s, delivered s, scheduled s)
    end.
Proof.
  destruct e; simpl;
    case_matches;
    simpl; try reflexivity; congruence.
Qed.

Lemma settle_lookup_eq (h : nat) (o : Outcome) (ts : gmap nat Task) :
  settle h o ts !! h
  = match o with
    | Suspended t => Some t
    | Fulfilled | Rejected => None
    end.
Proof.
  destruct o; simpl.
  - apply lookup_insert_eq.
  - apply lookup_delete_eq.
  - apply lookup_delete_eq.
Qed.

Lemma settle_lookup_ne (h h' : nat) (o : Outcome) (ts : gmap nat Task) :
  h <> h' -> settle h o ts !! h' = ts !! h'.
Proof.
  intros Hne. destruct o; simpl.
  - by apply lookup_insert_ne.
  - by apply lookup_delete_ne.
  - by apply lookup_delete_ne.
Qed.

Lemma scheduledBy_snoc_eq (h : nat) (c : list byte)
    (sc : list (nat * list byte)) :
  (filter (fun e => e.1 = h) (sc ++ [(h, c)])).*2
  = (filter (fun e => e.1 = h) sc).*2 ++ [c].
Proof.
  rewrite filter_app, fmap_app. f_equal.
  rewrite filter_cons_True by done. reflexivity.
Qed.

Lemma scheduledBy_snoc_ne (h h' : nat) (c : list byte)
    (sc : list (nat * list byte)) :
  h' <> h ->
  (filter (fun e => e.1 = h) (sc ++ [(h', c)])).*2
  = (filter (fun e => e.1 = h) sc).*2.
Proof.
  intros Hne. rewrite filter_app, fmap_app.
  rewrite filter_cons_False by done. simpl. by rewrite app_nil_r.
Qed.

(** A delivery keeps the bookkeeping consistent. *)
Lemma ledgerOk_deliver (ts : gmap nat Task) (dl : list LiveServerMessage)
    (sc : list (nat * list byte)) (msg : LiveServerMessage) (o : Outcome) :
  match o with
  | Suspended t => audioChunks msg = awaiting t :: chunks (remaining t)
  | Fulfilled => audioChunks msg = []
  | Rejected => False
  end ->
  ledgerOk ts dl sc ->
  ledgerOk (settle (length dl) o ts) (dl ++ [msg]) sc.
Proof.
  intros Ho Hok h. specialize (Hok h).
  destruct (decide (h = length dl)) as [->|Hne].
  - rewrite lookup_app_r, Nat.sub_diag by lia. simpl.
    rewrite settle_lookup_eq.
    rewrite (lookup_ge_None_2 dl (length dl)) in Hok by lia.
    destruct Hok as [_ ->]. simpl.
    destruct o as [t| |]; [by symmetry | apply prefix_nil | done].
  - rewrite settle_lookup_ne by done.
    destruct (decide (h < length dl)%nat) as [Hlt|Hge].
    + by rewrite lookup_app_l.
    + rewrite (lookup_ge_None_2 dl h) in Hok by lia.
      rewrite lookup_ge_None_2; [done|].
      rewrite length_app. simpl. lia.
Qed.

(** A settled decode keeps the bookkeeping consistent. *)
Lemma ledgerOk_decoded (ts : gmap nat Task) (dl : list LiveServerMessage)
    (sc : list (nat * list byte)) (h : nat) (t : Task) (st : App) :
  ts !! h = Some t ->
  ledgerOk ts dl sc ->
  ledgerOk (settle h (resume t st).2 ts) dl
    (match decodeAudioData (awaiting t) with
     | Some _ => sc ++ [(h, awaiting t)]
     | None => sc
     end).
Proof.
  intros Ht Hok h'. pose proof (Hok h') as Hh'.
  destruct (decide (h' = h)) as [->|Hne].
  - rewrite settle_lookup_eq. rewrite Ht in Hh'.
    destruct (dl !! h) as [msg|]; [|by destruct Hh'].
    unfold resume. destruct (decodeAudioData (awaiting t)) as [b|]; simpl.
    + rewrite scheduledBy_snoc_eq.
      pose proof (audioLoop_outcome (remaining t) (then_interrupted t)
                    (playBuffer b st)) as Hout.
      destruct (audioLoop (remaining t) (then_interrupted t)
                  (playBuffer b st)).2 as [t'| |]; [| |done].
      * rewrite <- Hh', Hout, <- app_assoc. reflexivity.
      * rewrite <- Hh', Hout. reflexivity.
    + rewrite <- Hh'. by apply prefix_app_r.
  - rewrite settle_lookup_ne by done.
    destruct (decodeAudioData (awaiting t)); [|exact Hh'].
    by rewrite scheduledBy_snoc_ne.
Qed.

Lemma step_ledgerOk (e : Event) (s : Sys) :
  ledgerOk (tasks s) (delivered s) (scheduled s) ->
  ledgerOk (tasks (step e s)) (delivered (step e s)) (scheduled (step e s)).
Proof.
  intros Hok. pose proof (step_ledger e s) as Hled. revert Hled.
  generalize (tasks (step e s)) (delivered (step e s)) (scheduled (step e s)).
  intros ts' dl' sc' Hled.
  destruct e; try (injection Hled as -> -> ->; exact Hok).
  - destruct (channel s) as [cl|];
      injection Hled as -> -> ->; [|exact Hok].
    apply ledgerOk_deliver; [apply onmessage_outcome | exact Hok].
  - destruct (tasks s !! h) as [t|] eqn:Ht;
      injection Hled as -> -> ->; [|exact Hok].
    by apply ledgerOk_decoded.
Qed.

Lemma initial_ledgerOk :
  ledgerOk (tasks initialSys) (delivered initialSys) (scheduled initialSys).
Proof. intros h. simpl. by rewrite lookup_empty. Qed.

(** *** The node table mirrors the record of scheduled chunks *)

Lemma try_stop_buffers (j : nat) (ns : list SourceNode) :
  buffer <$> try_stop j ns = buffer <$> ns.
Proof.
  unfold try_stop. destruct (ns !! j) as [n|] eqn:Hj; [|done].
  unfold node_stop. destruct (startedAt n); [|done].
  rewrite list_fmap_insert. simpl. apply list_insert_id.
  by rewrite list_lookup_fmap, Hj.
Qed.

Lemma stopAll_buffers (srcs : gset nat) (ns : list SourceNode) :
  buffer <$> stopAll srcs ns = buffer <$> ns.
Proof.
  unfold stopAll. induction (elements srcs) as [|j l IH]; simpl; [done|].
  by rewrite try_stop_buffers.
Qed.

Lemma interrupt_buffers (st : App) :
  buffer <$> nodes (env (interrupt st)) = buffer <$> nodes (env st).
Proof. apply stopAll_buffers. Qed.

Lemma stopConversation_buffers (st : App) :
  buffer <$> nodes (env (stopConversation st)) = buffer <$> nodes (env st).
Proof.
  unfold stopConversation.
  destruct st as [u [nx srcs act proc mic tm pp] e].
  destruct act, proc, mic; apply stopAll_buffers.
Qed.

Lemma audioLoop_buffers (ps : list Part) (intr : bool) (st : App) :
  buffer <$> nodes (env (audioLoop ps intr st).1) = buffer <$> nodes (env st).
Proof.
  induction ps as [|p ps IH]; simpl.
  - destruct intr; [apply interrupt_buffers | reflexivity].
  - destruct (inlineData p) as [b|]; [|exact IH].
    destruct (truthy (data b)); [reflexivity | exact IH].
Qed.

Lemma onmessage_buffers (cl : Closure) (wu wm : WallClock)
    (msg : LiveServerMessage) (st : App) :
  buffer <$> nodes (env (onmessage cl wu wm msg st).1)
  = buffer <$> nodes (env st).
Proof.
  unfold onmessage. rewrite audioLoop_buffers.
  case_accounting cl msg; reflexivity.
Qed.

(** A settled decode adds exactly the decoded buffer, when there is
    one, as the last node. *)
Lemma resume_buffers (t : Task) (st : App) :
  buffer <$> nodes (env (resume t st).1)
  = (buffer <$> nodes (env st))
    ++ match decodeAudioData (awaiting t) with
       | Some b => [b]
       | None => []
       end.
Proof.
  unfold resume. destruct (decodeAudioData (awaiting t)) as [b|]; simpl.
  - rewrite audioLoop_buffers. simpl. by rewrite fmap_app.
  - by rewrite app_nil_r.
Qed.

Lemma onended_buffers (i : nat) (st : App) :
  buffer <$> nodes (env (onended i st)) = buffer <$> nodes (env st).
Proof. unfold onended. destruct (decide _); reflexivity. Qed.

Lemma onaudioprocess_buffers (f : Frame) (st : App) :
  buffer <$> nodes (env (onaudioprocess f st)) = buffer <$> nodes (env st).
Proof.
  unfold onaudioprocess.
  destruct (bool_decide (talkModeRef (refs st) = CONTINUOUS)
            || isPTTPressedRef (refs st)); reflexivity.
Qed.

Lemma handleSendText_buffers (w : WallClock) (st : App) :
  buffer <$> nodes (env (handleSendText w st)) = buffer <$> nodes (env st).
Proof.
  unfold handleSendText.
  destruct (negb (truthy (trim (textInput (ui st))))
            || negb (activeSessionRef (refs st))); reflexivity.
Qed.

Lemma step_mirrors (e : Event) (s : Sys) : mirrors s -> mirrors (step e s).
Proof.
  unfold mirrors, scheduledChunks. intros Hs.
  destruct e; simpl;
    case_matches;
    simpl; try exact Hs.
  - pose proof (onmessage_buffers c wu wm msg (appState s)) as H.
    call_result H.
    simpl in H. by rewrite H.
  - pose proof (resume_buffers t (appState s)) as H.
    call_result H.
    match goal with Heq : decodeAudioData _ = _ |- _ => rewrite Heq in H end.
    simpl in H. rewrite H, !fmap_app, Hs. simpl.
    by match goal with Heq : decodeAudioData _ = _ |- _ => rewrite Heq end.
  - pose proof (resume_buffers t (appState s)) as H.
    call_result H.
    match goal with Heq : decodeAudioData _ = _ |- _ => rewrite Heq in H end.
    simpl in H. by rewrite H, app_nil_r.
  - etrans; [|exact Hs]. f_equal.
    exact (stopConversation_buffers (setStatus ERROR (appState s))).
  - etrans; [|exact Hs]. f_equal.
    exact (stopConversation_buffers (setStatus DISCONNECTED (appState s))).
  - etrans; [|exact Hs]. f_equal. exact (onended_buffers i (appState s)).
  - etrans; [|exact Hs]. f_equal. exact (onaudioprocess_buffers f (appState s)).
  - etrans; [|exact Hs]. f_equal. exact (stopConversation_buffers (appState s)).
  - etrans; [|exact Hs]. f_equal. exact (handleSendText_buffers w (appState s)).
Qed.

Lemma run_mirrors (evs : list Event) : mirrors (run evs initialSys).
Proof. apply run_invariant; [apply step_mirrors | reflexivity]. Qed.

Lemma run_ledgerOk (evs : list Event) :
  ledgerOk (tasks (run evs initialSys)) (delivered (run evs initialSys))
    (scheduled (run evs initialSys)).
Proof.
  apply (run_invariant
           (fun s => ledgerOk (tasks s) (delivered s) (scheduled s)));
    [apply step_ledgerOk | apply initial_ledgerOk].
Qed.

Lemma step_Decoded_scheduled (s : Sys) (h : nat) (t : Task) (b : AudioBuffer) :
  tasks s !! h = Some t -> decodeAudioData (awaiting t) = Some b ->
  scheduled (step (Decoded h) s) = scheduled s ++ [(h, awaiting t)].
Proof.
  intros Ht Hb. pose proof (step_ledger (Decoded h) s) as Hled.
  cbv beta iota in Hled. rewrite Ht, Hb in Hled. by injection Hled.
Qed.

(** C1, as the code has it.  The chunks of one delivery are decoded
    strictly one at a time and scheduled in their arrival order,
    whatever the other events of the run: what was scheduled of a
    delivery is always a prefix of the chunks of its message.  Across
    deliveries nothing orders the calls: the chunk of a suspended
    delivery is scheduled when its own decode settles, its source being
    created after every source created so far, so the order of the
    schedule calls of different deliveries is the order in which their
    decodes complete.  (The sources of the node table, in creation
    order, are the decoded chunks of the record of scheduled chunks.) *)
Theorem delivery_chunks_in_order (evs : list Event) (h : nat)
    (msg : LiveServerMessage) :
  delivered (run evs initialSys) !! h = Some msg ->
  scheduledBy h (run evs initialSys) `prefix_of` audioChunks msg
  /\ (forall t b,
        tasks (run evs initialSys) !! h = Some t ->
        decodeAudioData (awaiting t) = Some b ->
        scheduled (step (Decoded h) (run evs initialSys))
        = scheduled (run evs initialSys) ++ [(h, awaiting t)]
        /\ buffer
             <$> nodes (env (appState (step (Decoded h) (run evs initialSys))))
           = (buffer <$> nodes (env (appState (run evs initialSys)))) ++ [b])
  /\ Some <$> (buffer <$> nodes (env (appState (run evs initialSys))))
     = decodeAudioData <$> scheduledChunks (run evs initialSys).
Proof.
  intros Hmsg. split; [|split].
  - pose proof (run_ledgerOk evs h) as Hok. rewrite Hmsg in Hok.
    unfold scheduledBy.
    destruct (tasks (run evs initialSys) !! h) as [t|]; [|exact Hok].
    rewrite <- Hok. by apply prefix_app_r.
  - intros t b Ht Hb. split; [by eapply step_Decoded_scheduled|].
    pose proof (resume_buffers t (appState (run evs initialSys))) as Hbuf.
    rewrite Hb in Hbuf. rewrite <- Hbuf. simpl. rewrite Ht.
    by destruct (resume t (appState (run evs initialSys))).
  - apply run_mirrors.
Qed.

Lemma delivery_chunks_in_order_witness :
  let evs :=
    Scenario.connect
    ++ [ChannelMessage (Scenario.audio [Scenario.chunkA; Scenario.chunkB])
          Scenario.clock Scenario.clock;
        ChannelMessage (Scenario.audio [Scenario.chunkB])
          Scenario.clock Scenario.clock;
        Decoded 1; Decoded 0] in
  scheduledBy 0 (run evs initialSys)
  `prefix_of` [Scenario.chunkA; Scenario.chunkB]
  /\ scheduled (step (Decoded 0) (run evs initialSys))
     = scheduled (run evs initialSys) ++ [(0%nat, Scenario.chunkB)].
Proof.
  intros evs.
  destruct (delivery_chunks_in_order evs 0
              (Scenario.audio [Scenario.chunkA; Scenario.chunkB]) eq_refl)
    as (Hprefix & Hnext & _).
  split; [exact Hprefix|].
  apply (Hnext (mkTask Scenario.chunkB [] false) Scenario.bufferB);
    reflexivity.
Defined.

(** C1 as stated fails: chunk A arrives, then chunk B in the next
    delivery, both decodes are in flight, and the decode of B settles
    first.  B is scheduled first, at device time 10, and A after it. *)
Lemma reversed_decodes_reorder :
  let s :=
    run [Tick 10;
         ChannelMessage (Scenario.audio [Scenario.chunkA])
           Scenario.clock Scenario.clock;
         ChannelMessage (Scenario.audio [Scenario.chunkB])
           Scenario.clock Scenario.clock;
         Decoded 1; Decoded 0]
      Scenario.connected in
  arrived s = [Scenario.chunkA; Scenario.chunkB]
  /\ scheduledChunks s = [Scenario.chunkB; Scenario.chunkA]
  /\ nodes (env (appState s))
     = [mkSourceNode Scenario.bufferB (Some 10) false;
        mkSourceNode Scenario.bufferA (Some 12) false]
  /\ ~ inArrivalOrder s.
Proof.
  intros s. split; [reflexivity|]. split; [reflexivity|].
  split; [reflexivity|].
  unfold inArrivalOrder. intros Hsub. vm_compute in Hsub.
  repeat match goal with
         | H : sublist _ _ |- _ => inversion H; clear H; subst
         end.
Qed.

(** ** Malformed chunks (lines 166-192) *)

(** Once a delivery is over, no event schedules anything for it. *)
Lemma over_stays_over (h : nat) (l : list (list byte)) (e : Event) (s : Sys) :
  (tasks s !! h = None /\ (h < length (delivered s))%nat
   /\ scheduledBy h s = l) ->
  tasks (step e s) !! h = None /\ (h < length (delivered (step e s)))%nat
  /\ scheduledBy h (step e s) = l.
Proof.
  intros (Hnone & Hlt & Hl). unfold scheduledBy in *.
  pose proof (step_ledger e s) as Hled. revert Hled.
  generalize (tasks (step e s)) (delivered (step e s)) (scheduled (step e s)).
  intros ts' dl' sc' Hled.
  destruct e; try (injection Hled as -> -> ->; done).
  - destruct (channel s) as [cl|]; injection Hled as -> -> ->; [|done].
    rewrite settle_lookup_ne by lia. rewrite length_app. simpl.
    repeat split; [done | lia | done].
  - destruct (tasks s !! h0) as [t|] eqn:Ht;
      injection Hled as -> -> ->; [|done].
    assert (Hne : h0 <> h) by congruence.
    rewrite settle_lookup_ne by done.
    repeat split; [done | done |].
    destruct (decodeAudioData (awaiting t)); [|done].
    by rewrite scheduledBy_snoc_ne.
Qed.

(** C7, as the code has it.  When the decode that a delivery awaits
    fails, the call of [onmessage] is abandoned there: the state of the
    component is exactly what it was (no source is created, the status
    and the history are untouched, nothing is shown), the chunk is not
    scheduled, and the rest of that delivery (its later chunks, its
    [interrupted] flag) is dropped with it: no later event schedules
    anything for that delivery.  The other suspended deliveries are
    untouched. *)
Theorem decode_failure_abandons_delivery (s : Sys) (h : nat) (t : Task) :
  tasks s !! h = Some t ->
  decodeAudioData (awaiting t) = None ->
  (h < length (delivered s))%nat ->
  step (Decoded h) s
  = mkSys (appState s) (starting s) (channel s) (delete h (tasks s))
      (delivered s) (scheduled s) (others s) (opened s)
  /\ (forall h', h' <> h ->
        tasks (step (Decoded h) s) !! h' = tasks s !! h')
  /\ (forall evs,
        scheduledBy h (run evs (step (Decoded h) s)) = scheduledBy h s).
Proof.
  intros Ht Hfail Hlt.
  assert (Hstep : step (Decoded h) s
                  = mkSys (appState s) (starting s) (channel s)
                      (delete h (tasks s)) (delivered s) (scheduled s)
                      (others s) (opened s)).
  { simpl. rewrite Ht. unfold resume. rewrite Hfail. reflexivity. }
  split; [exact Hstep|]. split.
  - intros h' Hne. rewrite Hstep. simpl. by apply lookup_delete_ne.
  - intros evs.
    apply (run_invariant
             (fun s' => tasks s' !! h = None
                        /\ (h < length (delivered s'))%nat
                        /\ scheduledBy h s' = scheduledBy h s)).
    + intros e s'. apply over_stays_over.
    + rewrite Hstep. simpl. split; [apply lookup_delete_eq|]. by split.
Qed.

Lemma decode_failure_abandons_delivery_witness :
  let s :=
    run [ChannelMessage (Scenario.audio [Scenario.chunkBad; Scenario.chunkA])
           Scenario.clock Scenario.clock]
      Scenario.connected in
  appState (step (Decoded 0) s) = appState s
  /\ tasks (step (Decoded 0) s) !! 0%nat = None
  /\ scheduledBy 0 (run [Decoded 0; Tick 5; Decoded 0] (step (Decoded 0) s))
     = [].
Proof.
  intros s.
  destruct (decode_failure_abandons_delivery s 0
              (mkTask Scenario.chunkBad
                 [mkPart (Some (mkBlob Scenario.chunkA))] false))
    as (Hstep & _ & Hnever).
  - reflexivity.
  - reflexivity.
  - vm_compute. lia.
  - split; [by rewrite Hstep|]. split.
    + rewrite Hstep. simpl. apply lookup_delete_eq.
    + apply (Hnever [Decoded 0; Tick 5; Decoded 0]).
Defined.

(** C7 as stated fails: in a delivery that carries a malformed chunk
    and then a well-formed one, the well-formed chunk is never
    scheduled, while the same chunk delivered alone is; the speaking
    flag set before the failed decode stays on with no source active. *)
Lemma malformed_chunk_drops_the_rest :
  let s :=
    run [ChannelMessage (Scenario.audio [Scenario.chunkBad; Scenario.chunkA])
           Scenario.clock Scenario.clock;
         Decoded 0; Decoded 0]
      Scenario.connected in
  let alone :=
    run [ChannelMessage (Scenario.audio [Scenario.chunkA])
           Scenario.clock Scenario.clock;
         Decoded 0; Decoded 0]
      Scenario.connected in
  arrived s = [Scenario.chunkBad; Scenario.chunkA]
  /\ scheduledChunks s = []
  /\ nodes (env (appState s)) = []
  /\ tasks s !! 0%nat = None
  /\ isModelSpeaking (ui (appState s)) = true
  /\ sourcesRef (refs (appState s)) = ∅
  /\ scheduledChunks alone = [Scenario.chunkA]
  /\ nodes (env (appState alone))
     = [mkSourceNode Scenario.bufferA (Some 0) false].
Proof. vm_compute. repeat split. Qed.

(** ** What holds along every run *)

(** The state a run of the loop leaves, by its outcome. *)
Lemma audioLoop_state (ps : list Part) (intr : bool) (st : App) :
  (audioLoop ps intr st).1
  = match (audioLoop ps intr st).2 with
    | Suspended _ => beginChunk st
    | Fulfilled => if intr then interrupt st else st
    | Rejected => st
    end.
Proof.
  induction ps as [|p ps IH]; simpl; [done|].
  destruct (inlineData p) as [b|]; [|exact IH].
  destruct (truthy (data b)); [reflexivity | exact IH].
Qed.

Lemma sane_cells (st st' : App) :
  saneCells st' = saneCells st -> sane st -> sane st'.
Proof.
  unfold saneCells, sane. intros Heq. injection Heq as -> -> -> -> ->. done.
Qed.

Lemma interrupt_sane (st : App) : sane st -> sane (interrupt st).
Proof.
  intros (Hnow & _ & Hcap). split; [exact Hnow|]. split; [|exact Hcap].
  intros i Hin. simpl in Hin. by apply not_elem_of_empty in Hin.
Qed.

Lemma stopConversation_sane (st : App) : sane st -> sane (stopConversation st).
Proof.
  intros (Hnow & _ & _). unfold stopConversation.
  destruct st as [u [nx srcs act proc mic tm pp] e].
  destruct act, proc, mic; (split; [exact Hnow|]; split;
    [intros i Hin; by apply not_elem_of_empty in Hin | discriminate]).
Qed.

Lemma beginChunk_sane (st : App) : sane st -> sane (beginChunk st).
Proof. by apply sane_cells. Qed.

Lemma playBuffer_sane (b : AudioBuffer) (st : App) :
  sane st -> sane (playBuffer b st).
Proof.
  intros (Hnow & Hsrc & Hcap). split; [exact Hnow|]. split; [|exact Hcap].
  intros i Hin. simpl in Hin. simpl.
  apply elem_of_union in Hin as [Hin|Hin].
  - destruct (Hsrc i Hin) as (n & Hn & Hstarted).
    exists n. split; [|done]. rewrite lookup_app_l; [done|].
    by eapply lookup_lt_Some.
  - assert (Hi : i = length (nodes (env st))) by set_solver. subst i.
    eexists. split.
    + rewrite lookup_app_r, Nat.sub_diag by lia. reflexivity.
    + by eexists.
Qed.

Lemma audioLoop_sane (ps : list Part) (intr : bool) (st : App) :
  sane st -> sane (audioLoop ps intr st).1.
Proof.
  intros Hst. rewrite audioLoop_state.
  destruct (audioLoop ps intr st).2; [by apply beginChunk_sane | | done].
  destruct intr; [by apply interrupt_sane | done].
Qed.

Lemma onmessage_sane (cl : Closure) (wu wm : WallClock)
    (msg : LiveServerMessage) (st : App) :
  sane st -> sane (onmessage cl wu wm msg st).1.
Proof.
  intros Hst. unfold onmessage. apply audioLoop_sane.
  eapply sane_cells; [|exact Hst].
  case_accounting cl msg; reflexivity.
Qed.

Lemma resume_sane (t : Task) (st : App) : sane st -> sane (resume t st).1.
Proof.
  intros Hst. unfold resume.
  destruct (decodeAudioData (awaiting t)); [|done].
  by apply audioLoop_sane, playBuffer_sane.
Qed.

Lemma onended_sane (i : nat) (st : App) : sane st -> sane (onended i st).
Proof.
  intros (Hnow & Hsrc & Hcap).
  assert (Hdel : sane (set_sourcesRef (sourcesRef (refs st) ∖ {[ i ]}) st)).
  { split; [exact Hnow|]. split; [|exact Hcap].
    intros j Hin. simpl in Hin. apply Hsrc.
    apply elem_of_difference in Hin. by destruct Hin. }
  unfold onended. destruct (decide _); [|exact Hdel].
  eapply sane_cells; [reflexivity | exact Hdel].
Qed.

Lemma tick_sane (dt : N) (st : App) : sane st -> sane (tick dt st).
Proof.
  intros (Hnow & Hsrc & Hcap). split; [simpl; lia|]. by split.
Qed.

Lemma onopen_sane (st : App) : sane st -> sane (onopen st).
Proof. intros (Hnow & Hsrc & _). split; [exact Hnow|]. by split. Qed.

Lemma setStatus_sane (v : ConnectionStatus) (st : App) :
  v <> CONNECTED -> sane st -> sane (setStatus v st).
Proof. intros Hv (Hnow & Hsrc & _). split; [exact Hnow|]. by split. Qed.

Lemma handleSendText_sane (w : WallClock) (st : App) :
  sane st -> sane (handleSendText w st).
Proof.
  apply sane_cells. unfold handleSendText.
  destruct (negb (truthy (trim (textInput (ui st))))
            || negb (activeSessionRef (refs st))); reflexivity.
Qed.

Lemma onaudioprocess_sane (f : Frame) (st : App) :
  sane st -> sane (onaudioprocess f st).
Proof.
  apply sane_cells. unfold onaudioprocess.
  destruct (bool_decide (talkModeRef (refs st) = CONTINUOUS)
            || isPTTPressedRef (refs st)); reflexivity.
Qed.

Lemma step_sane (e : Event) (s : Sys) :
  sane (appState s) -> sane (appState (step e s)).
Proof.
  intros Hs. destruct e;
    try rewrite step_AudioProcess; simpl;
    case_matches;
    try exact Hs.
  - by apply setStatus_sane.
  - by apply setStatus_sane.
  - by apply onopen_sane.
  - pose proof (onmessage_sane c wu wm msg (appState s) Hs) as H.
    by call_result H.
  - pose proof (resume_sane t (appState s) Hs) as H.
    by call_result H.
  - pose proof (resume_sane t (appState s) Hs) as H.
    by call_result H.
  - apply (stopConversation_sane (setStatus ERROR (appState s))).
    by apply setStatus_sane.
  - apply (stopConversation_sane (setStatus DISCONNECTED (appState s))).
    by apply setStatus_sane.
  - by apply onended_sane.
  - by apply onaudioprocess_sane.
  - by apply stopConversation_sane.
  - by apply handleSendText_sane.
  - by apply tick_sane.
Qed.

Lemma run_sane (evs : list Event) : sane (appState (run evs initialSys)).
Proof.
  apply (run_invariant (fun s => sane (appState s))); [apply step_sane|].
  split; [done|]. split; [|done].
  intros i Hin. by apply not_elem_of_empty in Hin.
Qed.

(** Along every run, whenever the status is [CONNECTED] the script
    processor of the ref is connected: the gate decides on every frame
    of a connected session. *)
Lemma connected_is_capturing (evs : list Event) :
  status (ui (appState (run evs initialSys))) = CONNECTED ->
  capturing (env (appState (run evs initialSys))) = true.
Proof. apply run_sane. Qed.

(** Interruption along runs: an interruption empties the set of
    sources after stopping every member, and the next buffer starts at
    the device time. *)
Lemma interrupt_resets_reachable (evs : list Event) (b : AudioBuffer) :
  let st := appState (run evs initialSys) in
  (forall i, i ∈ sourcesRef (refs st) ->
     exists n', nodes (env (interrupt st)) !! i = Some n' /\ stopped n' = true)
  /\ nodes (env (schedule b (interrupt st)))
     = nodes (env (interrupt st))
       ++ [mkSourceNode b (Some (currentTime (env st))) false].
Proof.
  intros st. destruct (run_sane evs) as (Hnow & Hsrc & _). fold st in Hnow, Hsrc.
  split.
  - intros i Hin. destruct (Hsrc i Hin) as (n & Hn & Hstarted).
    destruct (stopAll_lookup (sourcesRef (refs st)) i _ _ Hn)
      as (n' & Hn' & _ & Hstop).
    exists n'. split; [exact Hn' | by apply Hstop].
  - rewrite schedule_nodes. simpl. do 4 f_equal. lia.
Qed.

(** ** The playback scheduler along a delivery (lines 166-191) *)

Lemma try_stop_fixedPart (j : nat) (ns : list SourceNode) :
  fixedPart <$> try_stop j ns = fixedPart <$> ns.
Proof.
  unfold try_stop. destruct (ns !! j) as [n|] eqn:Hj; [|done].
  unfold node_stop. destruct (startedAt n) eqn:Hst; [|done].
  rewrite list_fmap_insert. apply list_insert_id.
  rewrite list_lookup_fmap, Hj. unfold fixedPart. simpl. by rewrite Hst.
Qed.

Lemma stopAll_fixedPart (srcs : gset nat) (ns : list SourceNode) :
  fixedPart <$> stopAll srcs ns = fixedPart <$> ns.
Proof.
  unfold stopAll. induction (elements srcs) as [|j l IH]; simpl; [done|].
  by rewrite try_stop_fixedPart.
Qed.

Lemma audioLoop_clock (ps : list Part) (intr : bool) (st : App) :
  currentTime (env (audioLoop ps intr st).1) = currentTime (env st).
Proof.
  rewrite audioLoop_state.
  destruct (audioLoop ps intr st).2; [reflexivity | | reflexivity].
  destruct intr; reflexivity.
Qed.

Lemma onmessage_clock (cl : Closure) (wu wm : WallClock)
    (msg : LiveServerMessage) (st : App) :
  currentTime (env (onmessage cl wu wm msg st).1) = currentTime (env st).
Proof.
  unfold onmessage. rewrite audioLoop_clock.
  case_accounting cl msg; reflexivity.
Qed.

Lemma resume_clock (t : Task) (st : App) :
  currentTime (env (resume t st).1) = currentTime (env st).
Proof.
  unfold resume. destruct (decodeAudioData (awaiting t)); [|reflexivity].
  by rewrite audioLoop_clock.
Qed.

Lemma stopConversation_clock (st : App) :
  currentTime (env (stopConversation st)) = currentTime (env st).
Proof.
  unfold stopConversation.
  destruct st as [u [nx srcs act proc mic tm pp] e].
  destruct act, proc, mic; reflexivity.
Qed.

Lemma onended_clock (i : nat) (st : App) :
  currentTime (env (onended i st)) = currentTime (env st).
Proof. unfold onended. destruct (decide _); reflexivity. Qed.

Lemma onaudioprocess_clock (f : Frame) (st : App) :
  currentTime (env (onaudioprocess f st)) = currentTime (env st).
Proof. unfold onaudioprocess. destruct (_ || _); reflexivity. Qed.

Lemma handleSendText_clock (w : WallClock) (st : App) :
  currentTime (env (handleSendText w st)) = currentTime (env st).
Proof. unfold handleSendText. destruct (_ || _); reflexivity. Qed.

(** No handler of the component moves the device clock. *)
Lemma step_clock (e : Event) (s : Sys) :
  currentTime (env (appState (step e s)))
  = currentTime (env (appState s)) + elapsed [e].
Proof.
  destruct e; try rewrite step_AudioProcess; simpl; case_matches;
    rewrite ?Z.add_0_r; try reflexivity.
  - pose proof (onmessage_clock c wu wm msg (appState s)) as H.
    by call_result H.
  - pose proof (resume_clock t (appState s)) as H. by call_result H.
  - pose proof (resume_clock t (appState s)) as H. by call_result H.
  - exact (stopConversation_clock (setStatus ERROR (appState s))).
  - exact (stopConversation_clock (setStatus DISCONNECTED (appState s))).
  - exact (onended_clock i (appState s)).
  - exact (onaudioprocess_clock f (appState s)).
  - exact (stopConversation_clock (appState s)).
  - exact (handleSendText_clock w (appState s)).
Qed.

Lemma elapsed_cons (e : Event) (evs : list Event) :
  elapsed (e :: evs) = elapsed [e] + elapsed evs.
Proof. destruct e; simpl; lia. Qed.

Lemma run_clock (evs : list Event) (s : Sys) :
  currentTime (env (appState (run evs s)))
  = currentTime (env (appState s)) + elapsed evs.
Proof.
  revert s. induction evs as [|e evs IH]; intros s; [simpl; lia|].
  rewrite run_cons, IH, step_clock, (elapsed_cons e evs). lia.
Qed.

Lemma step_ChannelMessage_app (s : Sys) (cl : Closure)
    (msg : LiveServerMessage) (wu wm : WallClock) :
  channel s = Some cl ->
  appState (step (ChannelMessage msg wu wm) s)
  = (onmessage cl wu wm msg (appState s)).1
  /\ tasks (step (ChannelMessage msg wu wm) s)
     = settle (length (delivered s)) (onmessage cl wu wm msg (appState s)).2
         (tasks s).
Proof.
  intros Hch. simpl. rewrite Hch.
  by destruct (onmessage cl wu wm msg (appState s)).
Qed.

Lemma step_Decoded_app (s : Sys) (h : nat) (t : Task) (b : AudioBuffer) :
  tasks s !! h = Some t -> decodeAudioData (awaiting t) = Some b ->
  appState (step (Decoded h) s)
  = (audioLoop (remaining t) (then_interrupted t)
       (playBuffer b (appState s))).1
  /\ tasks (step (Decoded h) s)
     = settle h (audioLoop (remaining t) (then_interrupted t)
                   (playBuffer b (appState s))).2 (tasks s).
Proof.
  intros Ht Hb. simpl. rewrite Ht. unfold resume. rewrite Hb.
  by destruct (audioLoop _ _ _).
Qed.

(** What lines 144-163 leave alone: the node table, the cursor and the
    clock. *)
Lemma accounting_audio (cl : Closure) (wu wm : WallClock)
    (msg : LiveServerMessage) (st : App) :
  let st' := onTurnComplete cl wu wm msg (onTranscription msg st) in
  nodes (env st') = nodes (env st)
  /\ nextStartTimeRef (refs st') = nextStartTimeRef (refs st)
  /\ currentTime (env st') = currentTime (env st).
Proof. cbv zeta. case_accounting cl msg; repeat split. Qed.

(** The state after the settling of a decode, by what the loop does
    next: it comes to another chunk and raises the cursor (line 175),
    or it is over. *)
Lemma resumed_audio (t : Task) (b : AudioBuffer) (st : App) :
  let o := audioLoop (remaining t) (then_interrupted t) (playBuffer b st) in
  fixedPart <$> nodes (env o.1)
  = (fixedPart <$> nodes (env st)) ++ [(b, Some (nextStartTimeRef (refs st)))]
  /\ nextStartTimeRef (refs o.1)
     = match o.2 with
       | Suspended _ =>
           Z.max (nextStartTimeRef (refs st) + duration b)
             (currentTime (env st))
       | Fulfilled | Rejected =>
           if then_interrupted t then 0
           else nextStartTimeRef (refs st) + duration b
       end.
Proof.
  cbv zeta. rewrite audioLoop_state.
  pose proof (audioLoop_outcome (remaining t) (then_interrupted t)
                (playBuffer b st)) as Hout.
  destruct (audioLoop (remaining t) (then_interrupted t) (playBuffer b st)).2;
    [| |done].
  - split; [|reflexivity]. simpl. by rewrite fmap_app.
  - destruct (then_interrupted t); (split; [|reflexivity]).
    + unfold interrupt. simpl. rewrite stopAll_fixedPart. by rewrite fmap_app.
    + simpl. by rewrite fmap_app.
Qed.

(** A suspended delivery whose chunks all decode, left alone with its
    decodes while time passes, starts one source per chunk, with the
    [when]s of the recurrence. *)
Lemma drain_timed (dts : list N) (bs : list AudioBuffer) (s : Sys) (h : nat)
    (t : Task) :
  tasks s !! h = Some t ->
  Forall2 (fun c b => decodeAudioData c = Some b)
    (awaiting t :: chunks (remaining t)) bs ->
  length dts = length bs ->
  fixedPart
    <$> nodes (env (appState
                      (run (flat_map (fun dt => [Tick dt; Decoded h]) dts) s)))
  = (fixedPart <$> nodes (env (appState s)))
    ++ zip bs
         (Some <$> whens (nextStartTimeRef (refs (appState s)))
                     (currentTime (env (appState s))) bs dts).
Proof.
  revert bs s t. induction dts as [|dt dts IH]; intros bs s t Ht Hdec Hlen.
  - destruct bs; [by inversion Hdec | discriminate].
  - destruct bs as [|b bs]; [discriminate|].
    apply Forall2_cons in Hdec as [Hb Hrest].
    change (flat_map (fun dt => [Tick dt; Decoded h]) (dt :: dts))
      with (Tick dt :: Decoded h
            :: flat_map (fun dt => [Tick dt; Decoded h]) dts).
    rewrite !run_cons.
    set (s1 := step (Tick dt) s).
    assert (Ht1 : tasks s1 !! h = Some t) by exact Ht.
    destruct (step_Decoded_app s1 h t b Ht1 Hb) as [Hst Hts].
    destruct (resumed_audio t b (appState s1)) as [Hnodes Hcursor].
    pose proof (audioLoop_outcome (remaining t) (then_interrupted t)
                  (playBuffer b (appState s1))) as Hout.
    pose proof (audioLoop_clock (remaining t) (then_interrupted t)
                  (playBuffer b (appState s1))) as Hclock.
    rewrite <- Hst in Hnodes, Hcursor, Hclock.
    revert Hts Hnodes Hcursor Hclock Hout.
    generalize (step (Decoded h) s1).
    destruct (audioLoop (remaining t) (then_interrupted t)
                (playBuffer b (appState s1))).2 as [t'| |];
      intros s2 Hts Hnodes Hcursor Hclock Hout; [| |done].
    + rewrite (IH bs s2 t').
      * rewrite Hnodes, Hcursor, Hclock. simpl. by rewrite <- app_assoc.
      * rewrite Hts. apply settle_lookup_eq.
      * by rewrite <- Hout.
      * simpl in Hlen. lia.
    + rewrite Hout in Hrest. apply Forall2_nil_inv_l in Hrest. subst bs.
      destruct dts; [|discriminate]. simpl.
      by rewrite Hnodes.
Qed.

Lemma whens_head (c now : Z) (bs : list AudioBuffer) (dts : list N) :
  is_Some (bs !! 0%nat) -> is_Some (dts !! 0%nat) ->
  whens c now bs dts !! 0%nat = Some c.
Proof. destruct bs, dts; simpl; intros [? ?] [? ?]; done. Qed.

(** The recurrence between the [when]s of two successive chunks: the
    device time that counts is the one at which the decode of the
    earlier chunk settles. *)
Lemma whens_succ (h : nat) (c now : Z) (bs : list AudioBuffer) (dts : list N)
    (i : nat) (w : Z) (b : AudioBuffer) :
  whens c now bs dts !! i = Some w -> bs !! i = Some b ->
  is_Some (bs !! S i) -> is_Some (dts !! S i) ->
  whens c now bs dts !! S i
  = Some (Z.max (w + duration b)
            (now + elapsed (flat_map (fun dt => [Tick dt; Decoded h])
                              (take (S i) dts)))).
Proof.
  revert c now dts i. induction bs as [|b0 bs IH]; intros c now dts i;
    [done|].
  destruct dts as [|dt0 dts]; [done|].
  destruct i as [|i]; simpl whens; intros Hw Hb Hbs Hdts.
  - simpl in Hw, Hb. injection Hw as <-. injection Hb as ->.
    destruct bs as [|b1 bs]; [by destruct Hbs|].
    destruct dts as [|dt1 dts]; [by destruct Hdts|].
    simpl. do 2 f_equal. lia.
  - simpl in Hw, Hb, Hbs, Hdts.
    rewrite (lookup_cons_ne_0 _ _ (S (S i))) by done. simpl pred.
    rewrite (IH _ _ dts i Hw Hb Hbs Hdts).
    do 2 f_equal.
    change (take (S (S i)) (dt0 :: dts)) with (dt0 :: take (S i) dts).
    simpl. lia.
Qed.

Lemma whens_length (c now : Z) (bs : list AudioBuffer) (dts : list N) :
  length dts = length bs -> length (whens c now bs dts) = length bs.
Proof.
  revert c now dts. induction bs as [|b bs IH]; intros c now [|dt dts] Hlen;
    simpl in *; try done.
  rewrite IH; [done | lia].
Qed.

Lemma duration_nonneg (b : AudioBuffer) : 0 <= duration b.
Proof. unfold duration. lia. Qed.

(** C2, as the code has it.  The scheduling of the chunks of a
    delivery by [onmessage].  When the loop comes to a chunk it raises
    the cursor to the device time when it is behind ([nextStartTime =
    max(nextStartTime, currentTime)], line 175) and awaits the decode;
    when the decode settles, the new source is started with [when]
    equal to the cursor as it is then (line 187), and the cursor
    advances by the duration of the buffer (line 188).  So, for a
    message whose chunks decode to the buffers [bs], processed alone
    while the device clock runs during the decodes: the [when] of the
    first chunk is the maximum of the cursor and the device time on
    arrival, and the [when] of chunk [i+1] is [max(when i + duration i,
    now)], where [now] is the device time when the loop comes to chunk
    [i+1], that is, when the decode of chunk [i] has settled and its
    [start] call is made; it is [when i + duration i] whenever that
    instant is not before [now].  The clock is not read again at the
    [start] call: a source begins at its [when] if the decode has
    settled by then, and when the [start] calls of two successive
    chunks both come in time, the later source begins exactly when the
    earlier one ends. *)
Theorem delivery_schedules_back_to_back (s : Sys) (cl : Closure)
    (d : LiveServerMessage * WallClock * WallClock) (bs : list AudioBuffer)
    (dts : list N) :
  channel s = Some cl ->
  Forall2 (fun c b => decodeAudioData c = Some b) (audioChunks d.1.1) bs ->
  length dts = length bs ->
  let h := length (delivered s) in
  let final := appState (run (deliveryTimed h d dts) s) in
  let first := length (nodes (env (appState s))) in
  let clockAt k :=
    currentTime (env (appState (run (deliveryTimed h d (take k dts)) s))) in
  (forall s0 h0 t b,
     tasks s0 !! h0 = Some t -> decodeAudioData (awaiting t) = Some b ->
     let c := nextStartTimeRef (refs (appState s0)) in
     let s1 := step (Decoded h0) s0 in
     fixedPart <$> nodes (env (appState s1))
     = (fixedPart <$> nodes (env (appState s0))) ++ [(b, Some c)]
     /\ nextStartTimeRef (refs (appState s1))
        = match tasks s1 !! h0 with
          | Some _ => Z.max (c + duration b) (currentTime (env (appState s0)))
          | None => if then_interrupted t then 0 else c + duration b
          end)
  /\ (forall b,
        bs !! 0%nat = Some b ->
        exists n,
          nodes (env final) !! first = Some n
          /\ buffer n = b
          /\ startedAt n
             = Some (Z.max (nextStartTimeRef (refs (appState s)))
                       (currentTime (env (appState s)))))
  /\ (forall i b b',
        bs !! i = Some b -> bs !! S i = Some b' ->
        exists n n' w w',
          nodes (env final) !! (first + i)%nat = Some n
          /\ nodes (env final) !! (first + S i)%nat = Some n'
          /\ buffer n = b /\ buffer n' = b'
          /\ startedAt n = Some w /\ startedAt n' = Some w'
          /\ w' = Z.max (w + duration b) (clockAt (S i))
          /\ (clockAt (S i) <= w + duration b -> w' = w + duration b)
          /\ (clockAt (S i) <= w -> clockAt (S (S i)) <= w' ->
              beginsAt w (clockAt (S i)) = w
              /\ beginsAt w' (clockAt (S (S i))) = w + duration b)).
Proof.
  intros Hch Hdec Hlen h final first clockAt. split.
  { intros s0 h0 t b Ht Hb c s1.
    destruct (step_Decoded_app s0 h0 t b Ht Hb) as [Hst Hts].
    destruct (resumed_audio t b (appState s0)) as [Hnodes Hcursor].
    subst s1. rewrite Hst, Hts, settle_lookup_eq. split; [exact Hnodes|].
    rewrite Hcursor.
    by destruct (audioLoop (remaining t) (then_interrupted t)
                   (playBuffer b (appState s0))).2. }
  destruct d as [[msg wu] wm]. cbn [fst snd] in *.
  set (c0 := Z.max (nextStartTimeRef (refs (appState s)))
               (currentTime (env (appState s)))).
  set (ws := whens c0 (currentTime (env (appState s))) bs dts).
  assert (Hfinal : bs <> [] ->
            fixedPart <$> nodes (env final)
            = (fixedPart <$> nodes (env (appState s)))
              ++ zip bs (Some <$> ws)).
  { intros Hne. subst final. unfold deliveryTimed. cbn [fst snd].
    rewrite run_cons.
    destruct (step_ChannelMessage_app s cl msg wu wm Hch) as [Hst Hts].
    pose proof (onmessage_outcome cl wu wm msg (appState s)) as Hout.
    unfold onmessage in Hst.
    rewrite audioLoop_state in Hst.
    destruct (accounting_audio cl wu wm msg (appState s))
      as (Hn & Hc & Hnow).
    change (audioLoop (messageParts msg) (sc_flag interrupted msg)
              (onTurnComplete cl wu wm msg (onTranscription msg (appState s))))
      with (onmessage cl wu wm msg (appState s)) in Hst.
    revert Hst Hts. generalize (step (ChannelMessage msg wu wm) s).
    destruct (onmessage cl wu wm msg (appState s)).2 as [t| |];
      intros s1 Hst Hts; [| |done].
    - rewrite (drain_timed dts bs s1 h t).
      + rewrite Hst. simpl. rewrite Hn, Hc, Hnow. reflexivity.
      + rewrite Hts. apply settle_lookup_eq.
      + by rewrite <- Hout.
      + exact Hlen.
    - rewrite Hout in Hdec. apply Forall2_nil_inv_l in Hdec. done. }
  assert (Hnode : forall i b w,
            bs !! i = Some b -> ws !! i = Some w ->
            exists n,
              nodes (env final) !! (first + i)%nat = Some n
              /\ buffer n = b /\ startedAt n = Some w).
  { intros i b w Hb Hw.
    assert (Hne : bs <> []) by (intros ->; done).
    pose proof (f_equal (fun l => l !! (first + i)%nat) (Hfinal Hne)) as Hlook.
    cbv beta in Hlook.
    rewrite list_lookup_fmap, lookup_app_r in Hlook
      by (rewrite length_fmap; subst first; lia).
    rewrite length_fmap in Hlook.
    replace (first + i - length (nodes (env (appState s))))%nat with i
      in Hlook by (subst first; lia).
    rewrite lookup_zip_with, Hb in Hlook. simpl in Hlook.
    rewrite list_lookup_fmap, Hw in Hlook. simpl in Hlook.
    destruct (nodes (env final) !! (first + i)%nat) as [n|]; [|done].
    exists n. split; [done|]. simpl in Hlook. unfold fixedPart in Hlook.
    injection Hlook as Hbuf Hstart. by split. }
  assert (Hws : forall i, is_Some (bs !! i) -> is_Some (ws !! i)).
  { intros i Hi. apply lookup_lt_is_Some. subst ws.
    rewrite whens_length by exact Hlen. by apply lookup_lt_is_Some. }
  split.
  - intros b Hb.
    destruct (Hws 0%nat (mk_is_Some _ _ Hb)) as [w Hw].
    assert (Hw0 : ws !! 0%nat = Some c0).
    { apply whens_head; [by eexists|]. apply lookup_lt_is_Some.
      rewrite Hlen. by eapply lookup_lt_Some. }
    rewrite Hw0 in Hw. injection Hw as <-.
    replace first with (first + 0)%nat by lia. by apply Hnode.
  - intros i b b' Hb Hb'.
    destruct (Hws i (mk_is_Some _ _ Hb)) as [w Hw].
    assert (Hdts : is_Some (dts !! S i)).
    { apply lookup_lt_is_Some. rewrite Hlen. by eapply lookup_lt_Some. }
    pose proof (whens_succ h c0 (currentTime (env (appState s))) bs dts i w b
                  Hw Hb (mk_is_Some _ _ Hb') Hdts) as Hw'.
    fold ws in Hw'.
    assert (Hnow : clockAt (S i)
                   = currentTime (env (appState s))
                     + elapsed (flat_map (fun dt => [Tick dt; Decoded h])
                                  (take (S i) dts))).
    { subst clockAt. cbv beta. rewrite run_clock. reflexivity. }
    rewrite <- Hnow in Hw'.
    destruct (Hnode i b w Hb Hw) as (n & Hn & Hbuf & Hstart).
    destruct (Hnode (S i) b' _ Hb' Hw') as (n' & Hn' & Hbuf' & Hstart').
    exists n, n', w, (Z.max (w + duration b) (clockAt (S i))).
    pose proof (duration_nonneg b) as Hd.
    repeat split; try done; unfold beginsAt; lia.
Qed.

Lemma delivery_schedules_back_to_back_witness :
  let s := Scenario.playing in
  let d :=
    (Scenario.audio [Scenario.chunkB; Scenario.chunkA], Scenario.clock,
     Scenario.clock) in
  let final := appState (run (deliveryTimed 1 d [1%N; 1%N]) s) in
  nextStartTimeRef (refs (appState s)) = 11
  /\ currentTime (env (appState s)) = 10
  /\ exists n n' w w',
       nodes (env final) !! 1%nat = Some n
       /\ nodes (env final) !! 2%nat = Some n'
       /\ buffer n = Scenario.bufferB /\ buffer n' = Scenario.bufferA
       /\ startedAt n = Some w /\ startedAt n' = Some w'
       /\ w = 11 /\ w' = w + duration Scenario.bufferB.
Proof.
  intros s d final.
  split; [reflexivity|]. split; [reflexivity|].
  destruct (delivery_schedules_back_to_back s (mkClosure [] []) d
              [Scenario.bufferB; Scenario.bufferA] [1%N; 1%N])
    as (_ & _ & Hnext).
  - reflexivity.
  - repeat constructor.
  - reflexivity.
  - destruct (Hnext 0%nat Scenario.bufferB Scenario.bufferA eq_refl eq_refl)
      as (n & n' & w & w' & Hn & Hn' & Hb & Hb' & Hw & Hw' & _ & Hback & _).
    exists n, n', w, w'.
    assert (Hw11 : w = 11).
    { vm_compute in Hn. injection Hn as <-. simpl in Hw. congruence. }
    repeat split; try done.
    apply Hback. rewrite Hw11. vm_compute. discriminate.
Defined.

(** C2 as stated fails.  Twenty frames of audio and then one more
    arrive at device time 10 with the cursor behind; the decode of the
    first chunk takes 5 units and that of the second 1.  The [when]s
    are 10 and 30 = 10 + 20, and 30 is not before the device time 15 at
    which the second chunk is reached; but the first [start] call is
    made at 15, when its [when] has passed: the source begins at 15,
    not at the cursor, it plays until 35, and the second source begins
    at 30, while the first still plays. *)
Lemma late_start_overlaps :
  let d :=
    (Scenario.audio [Scenario.chunkLong; Scenario.chunkA], Scenario.clock,
     Scenario.clock) in
  let s := run [Tick 10] Scenario.connected in
  let after k := appState (run (deliveryTimed 0 d (take k [5%N; 1%N])) s) in
  nextStartTimeRef (refs (after 0%nat)) = 10
  /\ nodes (env (after 2%nat))
     = [mkSourceNode Scenario.bufferLong (Some 10) false;
        mkSourceNode Scenario.bufferA (Some 30) false]
  /\ currentTime (env (after 1%nat)) = 15
  /\ currentTime (env (after 2%nat)) = 16
  /\ 15 <= 10 + duration Scenario.bufferLong
  /\ beginsAt 10 15 <> 10
  /\ beginsAt 30 16 < beginsAt 10 15 + duration Scenario.bufferLong.
Proof. vm_compute. repeat split; discriminate. Qed.

(** * Further properties of the component *)

(** ** Teardown (lines 78-96) *)

Lemma stopAll_empty (ns : list SourceNode) : stopAll ∅ ns = ns.
Proof. unfold stopAll. by rewrite elements_empty. Qed.

(** Stopping twice is stopping once: on a stopped component
    [stopConversation] finds no handle to release and no source to
    stop, and changes nothing. *)
Theorem stopConversation_idempotent (st : App) :
  stopConversation (stopConversation st) = stopConversation st.
Proof.
  destruct st as [u [nx srcs act proc mic tm pp] e].
  unfold stopConversation.
  destruct act, proc, mic; simpl; unfold interrupt; simpl;
    by rewrite stopAll_empty.
Qed.

(** ** The status (lines 95, 100, 128, 203, 208, 227) *)

Lemma audioLoop_status (ps : list Part) (intr : bool) (st : App) :
  status (ui (audioLoop ps intr st).1) = status (ui st).
Proof.
  rewrite audioLoop_state.
  destruct (audioLoop ps intr st).2; [reflexivity | | reflexivity].
  destruct intr; reflexivity.
Qed.

Lemma onmessage_status (cl : Closure) (wu wm : WallClock)
    (msg : LiveServerMessage) (st : App) :
  status (ui (onmessage cl wu wm msg st).1) = status (ui st).
Proof.
  unfold onmessage. rewrite audioLoop_status.
  case_accounting cl msg; reflexivity.
Qed.

Lemma resume_status (t : Task) (st : App) :
  status (ui (resume t st).1) = status (ui st).
Proof.
  unfold resume. destruct (decodeAudioData (awaiting t)); [|reflexivity].
  by rewrite audioLoop_status.
Qed.

Lemma stopConversation_status (st : App) :
  status (ui (stopConversation st)) = DISCONNECTED.
Proof.
  unfold stopConversation.
  destruct st as [u [nx srcs act proc mic tm pp] e].
  destruct act, proc, mic; reflexivity.
Qed.

(** The status after an event, by cases on the event. *)
Lemma step_status_cases (e : Event) (s : Sys) :
  status (ui (appState (step e s))) = status (ui (appState s))
  \/ (e = ClickStart /\ startShown (appState s) = true
      /\ status (ui (appState (step e s))) = CONNECTING)
  \/ (e = StartRejected /\ is_Some (starting s)
      /\ status (ui (appState (step e s))) = ERROR)
  \/ (e = ChannelOpen /\ is_Some (channel s)
      /\ status (ui (appState (step e s))) = CONNECTED)
  \/ ((e = ChannelError \/ e = ChannelClose \/ e = ClickStop)
      /\ status (ui (appState (step e s))) = DISCONNECTED).
Proof.
  destruct e.
  - simpl. destruct (startShown (appState s)) eqn:Hshown; [|by left].
    right. left. done.
  - left. simpl. by destruct (starting s) as [[cl|]|].
  - simpl. destruct (starting s) as [p|] eqn:Hst; [|by left].
    right. right. left. by eauto.
  - left. simpl. by destruct (starting s) as [[cl|]|].
  - simpl. destruct (channel s) as [cl|] eqn:Hch; [|by left].
    right. right. right. left. by eauto.
  - left. simpl. destruct (channel s) as [cl|]; [|done].
    pose proof (onmessage_status cl wu wm msg (appState s)) as H.
    by destruct (onmessage cl wu wm msg (appState s)).
  - left. simpl. destruct (tasks s !! h) as [t|]; [|done].
    pose proof (resume_status t (appState s)) as H.
    by destruct (resume t (appState s)).
  - simpl. destruct (channel s) as [cl|]; [|by left].
    do 4 right. split; [by left|].
    apply (stopConversation_status (setStatus ERROR (appState s))).
  - simpl. destruct (channel s) as [cl|]; [|by left].
    do 4 right. split; [by right; left|].
    apply (stopConversation_status (setStatus DISCONNECTED (appState s))).
  - left. simpl. destruct (decide _); [|done].
    unfold onended. simpl. by destruct (decide _).
  - left. rewrite step_AudioProcess.
    destruct (capturing (env (appState s)) || opened s); [|done].
    simpl. unfold onaudioprocess. by destruct (_ || _).
  - simpl. destruct (startShown (appState s)); [by left|].
    do 4 right. split; [by right; right|].
    apply stopConversation_status.
  - by left.
  - left. simpl. by destruct (_ || _).
  - left. simpl. by destruct (_ || _).
  - left. simpl. by destruct (startShown (appState s)).
  - left. simpl. destruct (startShown (appState s)); [done|].
    simpl. unfold handleSendText. by destruct (_ || _).
  - by left.
  - left. simpl. by destruct (others s !! k).
Qed.

(** The transitions of the status.  The status at the end of a run is
    the status at its start, or it is [CONNECTING] and the start button
    was clicked during the run, or [ERROR] and a pending start was
    rejected, or [CONNECTED] and the channel opened, or [DISCONNECTED]
    and the channel reported an error or its closing or the stop button
    was clicked.  No other event changes the status; in particular no
    error of the channel leads to [ERROR]. *)
Theorem status_transitions (evs : list Event) (s : Sys) :
  let final := status (ui (appState (run evs s))) in
  final = status (ui (appState s))
  \/ (ClickStart ∈ evs /\ final = CONNECTING)
  \/ (StartRejected ∈ evs /\ final = ERROR)
  \/ (ChannelOpen ∈ evs /\ final = CONNECTED)
  \/ ((ChannelError ∈ evs \/ ChannelClose ∈ evs \/ ClickStop ∈ evs)
      /\ final = DISCONNECTED).
Proof.
  revert s. induction evs as [|e evs IH]; intros s; [by left|].
  cbv zeta. rewrite run_cons.
  destruct (IH (step e s))
    as [Hsame | [[Hin Hf] | [[Hin Hf] | [[Hin Hf] | [Hin Hf]]]]].
  - rewrite Hsame.
    destruct (step_status_cases e s)
      as [Heq | [(-> & _ & Hst) | [(-> & _ & Hst) | [(-> & _ & Hst)
                                                    | (He & Hst)]]]].
    + by left.
    + right. left. split; [by left | done].
    + right. right. left. split; [by left | done].
    + right. right. right. left. split; [by left | done].
    + do 4 right. split; [|done].
      destruct He as [-> | [-> | ->]];
        [left | right; left | right; right]; by left.
  - right. left. split; [by right | done].
  - right. right. left. split; [by right | done].
  - right. right. right. left. split; [by right | done].
  - do 4 right. split; [|done].
    destruct Hin as [Hin | [Hin | Hin]];
      [left | right; left | right; right]; by right.
Qed.

(** ** The node table (lines 178-189, 91, 195) *)

Lemma nodes_continue_refl (ns : list SourceNode) : nodes_continue ns ns.
Proof. intros i n Hi. exists n. split; [done | apply node_after_refl]. Qed.

Lemma nodes_continue_trans (ns1 ns2 ns3 : list SourceNode) :
  nodes_continue ns1 ns2 -> nodes_continue ns2 ns3 -> nodes_continue ns1 ns3.
Proof.
  intros H12 H23 i n Hi.
  destruct (H12 i n Hi) as (n2 & Hn2 & Haft2).
  destruct (H23 i n2 Hn2) as (n3 & Hn3 & Haft3).
  exists n3. split; [done | by eapply node_after_trans].
Qed.

Lemma stopAll_continue (srcs : gset nat) (ns : list SourceNode) :
  nodes_continue ns (stopAll srcs ns).
Proof.
  intros i n Hi.
  destruct (stopAll_lookup srcs i ns n Hi) as (n' & Hn' & Haft & _).
  by exists n'.
Qed.

Lemma stopConversation_continue (st : App) :
  nodes_continue (nodes (env st)) (nodes (env (stopConversation st))).
Proof.
  unfold stopConversation.
  destruct st as [u [nx srcs act proc mic tm pp] e].
  destruct act, proc, mic; apply stopAll_continue.
Qed.

Lemma playBuffer_continue (b : AudioBuffer) (st : App) :
  nodes_continue (nodes (env st)) (nodes (env (playBuffer b st))).
Proof.
  intros i n Hi. exists n. split; [|apply node_after_refl].
  simpl. rewrite lookup_app_l; [done|]. by eapply lookup_lt_Some.
Qed.

Lemma audioLoop_continue (ps : list Part) (intr : bool) (st : App) :
  nodes_continue (nodes (env st)) (nodes (env (audioLoop ps intr st).1)).
Proof.
  rewrite audioLoop_state.
  destruct (audioLoop ps intr st).2; [apply nodes_continue_refl | |
                                      apply nodes_continue_refl].
  destruct intr; [apply stopAll_continue | apply nodes_continue_refl].
Qed.

Lemma onmessage_continue (cl : Closure) (wu wm : WallClock)
    (msg : LiveServerMessage) (st : App) :
  nodes_continue (nodes (env st)) (nodes (env (onmessage cl wu wm msg st).1)).
Proof.
  unfold onmessage.
  eapply nodes_continue_trans; [|apply audioLoop_continue].
  case_accounting cl msg; apply nodes_continue_refl.
Qed.

Lemma resume_continue (t : Task) (st : App) :
  nodes_continue (nodes (env st)) (nodes (env (resume t st).1)).
Proof.
  unfold resume.
  destruct (decodeAudioData (awaiting t)); [|apply nodes_continue_refl].
  eapply nodes_continue_trans;
    [apply playBuffer_continue | apply audioLoop_continue].
Qed.

Lemma onended_continue (i : nat) (st : App) :
  nodes_continue (nodes (env st)) (nodes (env (onended i st))).
Proof. unfold onended. destruct (decide _); apply nodes_continue_refl. Qed.

Lemma onaudioprocess_continue (f : Frame) (st : App) :
  nodes_continue (nodes (env st)) (nodes (env (onaudioprocess f st))).
Proof.
  unfold onaudioprocess. destruct (_ || _); apply nodes_continue_refl.
Qed.

Lemma handleSendText_continue (w : WallClock) (st : App) :
  nodes_continue (nodes (env st)) (nodes (env (handleSendText w st))).
Proof.
  unfold handleSendText. destruct (_ || _); apply nodes_continue_refl.
Qed.

Lemma step_continue (e : Event) (s : Sys) :
  nodes_continue (nodes (env (appState s)))
    (nodes (env (appState (step e s)))).
Proof.
  destruct e; try rewrite step_AudioProcess; simpl; case_matches;
    try apply nodes_continue_refl.
  - pose proof (onmessage_continue c wu wm msg (appState s)) as H.
    by call_result H.
  - pose proof (resume_continue t (appState s)) as H. by call_result H.
  - pose proof (resume_continue t (appState s)) as H. by call_result H.
  - apply (stopConversation_continue (setStatus ERROR (appState s))).
  - apply (stopConversation_continue (setStatus DISCONNECTED (appState s))).
  - apply (onended_continue i (appState s)).
  - apply (onaudioprocess_continue f (appState s)).
  - apply stopConversation_continue.
  - apply (handleSendText_continue w (appState s)).
Qed.

(** A source, once created, stays what it is: whatever happens later,
    the node keeps its place in the table, its buffer and the start
    time it was given, and a node that was stopped stays stopped.  No
    event restarts, retimes or removes a source. *)
Theorem sources_are_never_retimed (evs : list Event) (s : Sys) (i : nat)
    (n : SourceNode) :
  nodes (env (appState s)) !! i = Some n ->
  exists n',
    nodes (env (appState (run evs s))) !! i = Some n'
    /\ buffer n' = buffer n
    /\ startedAt n' = startedAt n
    /\ (stopped n = true -> stopped n' = true).
Proof.
  revert s n. induction evs as [|e evs IH]; intros s n Hi.
  - exists n. by repeat split.
  - rewrite run_cons.
    destruct (step_continue e s i n Hi) as (n1 & Hn1 & Hb1 & Hs1 & Ht1).
    destruct (IH (step e s) n1 Hn1) as (n2 & Hn2 & Hb2 & Hs2 & Ht2).
    exists n2. repeat split; [done | congruence | congruence | auto].
Qed.

Lemma sources_are_never_retimed_witness :
  exists n',
    nodes (env (appState
                  (run [Tick 5; ChannelMessage Scenario.interruptedSignal
                                  Scenario.clock Scenario.clock;
                        ClickStop]
                     Scenario.playing))) !! 0%nat = Some n'
    /\ buffer n' = Scenario.bufferA
    /\ startedAt n' = Some 10.
Proof.
  destruct (sources_are_never_retimed
              [Tick 5; ChannelMessage Scenario.interruptedSignal
                         Scenario.clock Scenario.clock; ClickStop]
              Scenario.playing 0
              (mkSourceNode Scenario.bufferA (Some 10) false) eq_refl)
    as (n' & Hn' & Hb & Hs & _).
  exists n'. by repeat split.
Defined.

(** ** The history (lines 155-159 and 236-241) *)

Lemma slice_last_keeps_newest {A} (n : nat) (old new : list A) :
  (length new <= n)%nat -> new `suffix_of` slice_last n (old ++ new).
Proof.
  intros Hlen. unfold slice_last. rewrite length_app.
  rewrite drop_app_le by lia. by apply suffix_app_r.
Qed.

Lemma turnMessages_length (uText mText : jsstring) (wu wm : WallClock) :
  (length (turnMessages uText mText wu wm) <= 2)%nat.
Proof.
  unfold turnMessages. destruct (truthy uText), (truthy mText); simpl; lia.
Qed.

(** When a turn is finalized with text to record, the cap drops the
    oldest entries only: the new history is the end of the old one
    followed by the messages of the turn, these are its last entries,
    and it has at most fifty entries whatever the length before. *)
Theorem turn_finalization_keeps_newest (cl : Closure) (wu wm : WallClock)
    (msg : LiveServerMessage) (st : App) :
  sc_flag turnComplete msg = true ->
  cl_currentInput cl <> [] \/ cl_currentOutput cl <> [] ->
  let new := turnMessages (cl_currentInput cl) (cl_currentOutput cl) wu wm in
  let after := messages (ui (onTurnComplete cl wu wm msg st)) in
  new <> []
  /\ new `suffix_of` after
  /\ after `suffix_of` messages (ui st) ++ new
  /\ (length after <= 50)%nat.
Proof.
  intros Hflag Htext new after.
  destruct (onTurnComplete_effect cl wu wm msg st Hflag) as (Hmsgs & _).
  assert (Htruthy : truthy (cl_currentInput cl) || truthy (cl_currentOutput cl)
                    = true).
  { apply orb_true_iff. rewrite !truthy_true. exact Htext. }
  rewrite Htruthy in Hmsgs. subst after. rewrite Hmsgs. fold new.
  split.
  - subst new. unfold turnMessages. apply orb_true_iff in Htruthy.
    destruct Htruthy as [-> | ->]; [done|].
    destruct (truthy (cl_currentInput cl)); done.
  - split; [|split].
    + apply slice_last_keeps_newest.
      pose proof (turnMessages_length (cl_currentInput cl)
                    (cl_currentOutput cl) wu wm). fold new in H. lia.
    + apply slice_last_suffix.
    + apply slice_last_length.
Qed.

Lemma turn_finalization_keeps_newest_witness :
  let cl := mkClosure (lit "hello") (lit "hi there") in
  let st := appState (run [TypeText (lit "hi")] Scenario.fullHistory) in
  let after :=
    messages (ui (onTurnComplete cl Scenario.clock Scenario.clock
                    Scenario.turnCompleteSignal st)) in
  turnMessages (lit "hello") (lit "hi there") Scenario.clock Scenario.clock
  `suffix_of` after
  /\ (length after <= 50)%nat.
Proof.
  intros cl st after.
  destruct (turn_finalization_keeps_newest cl Scenario.clock Scenario.clock
              Scenario.turnCompleteSignal st eq_refl)
    as (_ & Hnew & _ & Hlen).
  - left. discriminate.
  - split; [exact Hnew | exact Hlen].
Defined.

Lemma audioLoop_messages (ps : list Part) (intr : bool) (st : App) :
  messages (ui (audioLoop ps intr st).1) = messages (ui st).
Proof.
  rewrite audioLoop_state.
  destruct (audioLoop ps intr st).2; [reflexivity | | reflexivity].
  destruct intr; reflexivity.
Qed.

Lemma onTranscription_messages (msg : LiveServerMessage) (st : App) :
  messages (ui (onTranscription msg st)) = messages (ui st).
Proof.
  unfold onTranscription.
  destruct (sc_field outputTranscription msg);
    [|destruct (sc_field inputTranscription msg)]; reflexivity.
Qed.

(** In a session whose callbacks were made while both accumulators
    were empty, no message of the channel changes the history: what is
    said and transcribed in such a session is never recorded. *)
Theorem spoken_turns_are_not_recorded (cl : Closure) (wu wm : WallClock)
    (msg : LiveServerMessage) (st : App) :
  cl_currentInput cl = [] -> cl_currentOutput cl = [] ->
  messages (ui (onmessage cl wu wm msg st).1) = messages (ui st).
Proof.
  intros Hin Hout. unfold onmessage. rewrite audioLoop_messages.
  unfold onTurnComplete. rewrite Hin, Hout. simpl.
  destruct (sc_flag turnComplete msg); simpl;
    apply onTranscription_messages.
Qed.

Lemma spoken_turns_are_not_recorded_witness :
  messages
    (ui (onmessage (closure_of initialApp) Scenario.clock Scenario.clock
           Scenario.turnCompleteSignal (appState Scenario.midTurn)).1)
  = messages (ui (appState Scenario.midTurn)).
Proof.
  apply (spoken_turns_are_not_recorded (closure_of initialApp));
    reflexivity.
Defined.

Lemma stopConversation_messages (st : App) :
  messages (ui (stopConversation st)) = messages (ui st).
Proof.
  unfold stopConversation.
  destruct st as [u [nx srcs act proc mic tm pp] e].
  destruct act, proc, mic; reflexivity.
Qed.

Lemma resume_messages (t : Task) (st : App) :
  messages (ui (resume t st).1) = messages (ui st).
Proof.
  unfold resume. destruct (decodeAudioData (awaiting t)); [|reflexivity].
  by rewrite audioLoop_messages.
Qed.

Lemma onended_messages (i : nat) (st : App) :
  messages (ui (onended i st)) = messages (ui st).
Proof. unfold onended. destruct (decide _); reflexivity. Qed.

Lemma onaudioprocess_messages (f : Frame) (st : App) :
  messages (ui (onaudioprocess f st)) = messages (ui st).
Proof. unfold onaudioprocess. destruct (_ || _); reflexivity. Qed.

Lemma history_kept (l l' : list Message) :
  l' = l ->
  exists added,
    (length added <= 2)%nat
    /\ (l' = l ++ added \/ l' = slice_last 50 (l ++ added)).
Proof.
  intros ->. exists []. split; [simpl; lia|]. left. by rewrite app_nil_r.
Qed.

Lemma onmessage_history (cl : Closure) (wu wm : WallClock)
    (msg : LiveServerMessage) (st : App) :
  exists added,
    (length added <= 2)%nat
    /\ (messages (ui (onmessage cl wu wm msg st).1) = messages (ui st) ++ added
        \/ messages (ui (onmessage cl wu wm msg st).1)
           = slice_last 50 (messages (ui st) ++ added)).
Proof.
  unfold onmessage. rewrite audioLoop_messages. unfold onTurnComplete.
  destruct (sc_flag turnComplete msg).
  - destruct (truthy (cl_currentInput cl) || truthy (cl_currentOutput cl)).
    + eexists. simpl. rewrite onTranscription_messages.
      split; [apply turnMessages_length | by right].
    + apply history_kept. simpl. apply onTranscription_messages.
  - apply history_kept, onTranscription_messages.
Qed.

Lemma handleSendText_history (w : WallClock) (st : App) :
  exists added,
    (length added <= 2)%nat
    /\ (messages (ui (handleSendText w st)) = messages (ui st) ++ added
        \/ messages (ui (handleSendText w st))
           = slice_last 50 (messages (ui st) ++ added)).
Proof.
  unfold handleSendText.
  destruct (negb (truthy (trim (textInput (ui st))))
            || negb (activeSessionRef (refs st))).
  - by apply history_kept.
  - eexists. simpl. split; [|by left]. simpl. lia.
Qed.

(** Entries of the history are never edited, reordered or taken
    out of the middle.  Whatever the event and the state, the history
    after the event is the history before it with at most two entries
    appended at its end, either as it is or cut to its last fifty
    entries (the cut of the turn finalization, which drops from the
    front only). *)
Theorem history_is_append_only (e : Event) (s : Sys) :
  exists added,
    (length added <= 2)%nat
    /\ (messages (ui (appState (step e s)))
        = messages (ui (appState s)) ++ added
        \/ messages (ui (appState (step e s)))
           = slice_last 50 (messages (ui (appState s)) ++ added)).
Proof.
  destruct e; try rewrite step_AudioProcess; simpl; case_matches;
    try (by apply history_kept).
  - pose proof (onmessage_history c wu wm msg (appState s)) as H.
    by call_result H.
  - apply history_kept.
    pose proof (resume_messages t (appState s)) as H. by call_result H.
  - apply history_kept.
    pose proof (resume_messages t (appState s)) as H. by call_result H.
  - apply history_kept.
    apply (stopConversation_messages (setStatus ERROR (appState s))).
  - apply history_kept.
    apply (stopConversation_messages (setStatus DISCONNECTED (appState s))).
  - apply history_kept. apply (onended_messages i (appState s)).
  - apply history_kept. apply (onaudioprocess_messages f (appState s)).
  - apply history_kept. apply stopConversation_messages.
  - apply (handleSendText_history w (appState s)).
Qed.

(** ** The flags of capture and microphone (lines 83-90, 120-132) *)

Lemma audioLoop_heldCells (ps : list Part) (intr : bool) (st : App) :
  heldCells (audioLoop ps intr st).1 = heldCells st.
Proof.
  rewrite audioLoop_state.
  destruct (audioLoop ps intr st).2; [reflexivity | | reflexivity].
  destruct intr; reflexivity.
Qed.

Lemma onmessage_heldCells (cl : Closure) (wu wm : WallClock)
    (msg : LiveServerMessage) (st : App) :
  heldCells (onmessage cl wu wm msg st).1 = heldCells st.
Proof.
  unfold onmessage. rewrite audioLoop_heldCells.
  case_accounting cl msg; reflexivity.
Qed.

Lemma resume_heldCells (t : Task) (st : App) :
  heldCells (resume t st).1 = heldCells st.
Proof.
  unfold resume. destruct (decodeAudioData (awaiting t)); [|reflexivity].
  by rewrite audioLoop_heldCells.
Qed.

Lemma onended_heldCells (i : nat) (st : App) :
  heldCells (onended i st) = heldCells st.
Proof. unfold onended. destruct (decide _); reflexivity. Qed.

Lemma onaudioprocess_heldCells (f : Frame) (st : App) :
  heldCells (onaudioprocess f st) = heldCells st.
Proof. unfold onaudioprocess. destruct (_ || _); reflexivity. Qed.

Lemma handleSendText_heldCells (w : WallClock) (st : App) :
  heldCells (handleSendText w st) = heldCells st.
Proof. unfold handleSendText. destruct (_ || _); reflexivity. Qed.

(** ** Teardown along runs (lines 78-96, 201-210) *)

Lemma stopConversation_resets (st : App) :
  status (ui (stopConversation st)) = DISCONNECTED
  /\ sourcesRef (refs (stopConversation st)) = ∅
  /\ nextStartTimeRef (refs (stopConversation st)) = 0
  /\ isModelSpeaking (ui (stopConversation st)) = false.
Proof.
  unfold stopConversation.
  destruct st as [u [nx srcs act proc mic tm pp] e].
  destruct act, proc, mic; repeat split.
Qed.

Lemma stopConversation_sources (st : App) (i : nat) :
  sane st -> i ∈ sourcesRef (refs st) ->
  exists n',
    nodes (env (stopConversation st)) !! i = Some n' /\ stopped n' = true.
Proof.
  intros (_ & Hsrc & _) Hin. destruct (Hsrc i Hin) as (n & Hn & Hstarted).
  destruct (stopAll_lookup (sourcesRef (refs st)) i _ _ Hn)
    as (n' & Hn' & _ & Hstop).
  exists n'. split; [|by apply Hstop].
  unfold stopConversation. revert Hn'.
  destruct st as [u [nx srcs act proc mic tm pp] e].
  by destruct act, proc, mic.
Qed.

Lemma stopConversation_refs (st : App) :
  activeSessionRef (refs (stopConversation st)) = false
  /\ scriptProcessorRef (refs (stopConversation st)) = false
  /\ micStreamRef (refs (stopConversation st)) = false.
Proof.
  unfold stopConversation.
  destruct st as [u [nx srcs act proc mic tm pp] e].
  destruct act, proc, mic; repeat split.
Qed.

(** Teardown along every run.  When the stop button is clicked, or
    the channel of the call in focus reports an error or its closing,
    then whatever happened before: the status is [DISCONNECTED], the
    three refs of the session, of the processor and of the stream are
    empty, every source that was active has been stopped, the set of
    sources is empty, the cursor is back at 0 and the speaking flag is
    off. *)
Theorem teardown_resets_component (evs : list Event) (e : Event) :
  let s := run evs initialSys in
  (e = ClickStop /\ startShown (appState s) = false)
  \/ ((e = ChannelError \/ e = ChannelClose) /\ is_Some (channel s)) ->
  let st' := appState (step e s) in
  status (ui st') = DISCONNECTED
  /\ activeSessionRef (refs st') = false
  /\ scriptProcessorRef (refs st') = false
  /\ micStreamRef (refs st') = false
  /\ sourcesRef (refs st') = ∅
  /\ nextStartTimeRef (refs st') = 0
  /\ isModelSpeaking (ui st') = false
  /\ (forall i, i ∈ sourcesRef (refs (appState s)) ->
        exists n', nodes (env st') !! i = Some n' /\ stopped n' = true).
Proof.
  intros s Hcase.
  pose proof (run_sane evs) as Hsane. fold s in Hsane.
  assert (Hstop : exists st0,
             appState (step e s) = stopConversation st0
             /\ sane st0
             /\ sourcesRef (refs st0) = sourcesRef (refs (appState s))).
  { destruct Hcase as [[-> Hshown] | [[-> | ->] [cl Hch]]]; simpl.
    - rewrite Hshown. by exists (appState s).
    - rewrite Hch. exists (setStatus ERROR (appState s)).
      split; [reflexivity|].
      split; [by apply setStatus_sane | reflexivity].
    - rewrite Hch. exists (setStatus DISCONNECTED (appState s)).
      split; [reflexivity|].
      split; [by apply setStatus_sane | reflexivity]. }
  destruct Hstop as (st0 & Heq & Hsane0 & Hsrc0).
  pose proof (stopConversation_refs st0) as (Hr1 & Hr2 & Hr3).
  pose proof (stopConversation_resets st0) as (H1 & H2 & H3 & H4).
  cbv zeta. rewrite Heq.
  split; [exact H1|]. split; [exact Hr1|]. split; [exact Hr2|].
  split; [exact Hr3|].
  split; [exact H2|]. split; [exact H3|]. split; [exact H4|].
  intros i Hin. apply stopConversation_sources; [exact Hsane0|].
  by rewrite Hsrc0.
Qed.

Lemma teardown_resets_component_witness :
  let evs :=
    Scenario.connect
    ++ [Tick 10;
        ChannelMessage (Scenario.audio [Scenario.chunkA])
          Scenario.clock Scenario.clock;
        Decoded 0] in
  let st' := appState (step ClickStop (run evs initialSys)) in
  scriptProcessorRef (refs (appState (run evs initialSys))) = true
  /\ status (ui st') = DISCONNECTED
  /\ scriptProcessorRef (refs st') = false
  /\ micStreamRef (refs st') = false
  /\ (exists n', nodes (env st') !! 0%nat = Some n' /\ stopped n' = true).
Proof.
  intros evs st'.
  destruct (teardown_resets_component evs ClickStop)
    as (Hst & _ & Hproc & Hmic & _ & _ & _ & Hsrc).
  - left. split; reflexivity.
  - split; [reflexivity|]. split; [exact Hst|]. split; [exact Hproc|].
    split; [exact Hmic|]. apply Hsrc. vm_compute. set_solver.
Defined.

(** ** Stopping while the session is being set up (lines 79-82, 223-224) *)

(** The stop button during the wait for the session does not reach the
    channel: [activeSessionRef] is still empty, so [stopConversation]
    calls no [close()]; when the session then arrives, its handle is
    stored although the status is [DISCONNECTED]. *)
Theorem stop_while_connecting_keeps_channel (s : Sys) :
  starting s = Some AwaitingSession ->
  activeSessionRef (refs (appState s)) = false ->
  startShown (appState s) = false ->
  let s' := run [ClickStop; SessionResolved] s in
  status (ui (appState s')) = DISCONNECTED
  /\ activeSessionRef (refs (appState s')) = true
  /\ channelOpen (env (appState s')) = channelOpen (env (appState s))
  /\ channel s' = channel s.
Proof.
  intros Hstart Hact Hshown. unfold run. simpl. rewrite Hshown. simpl.
  rewrite Hstart. simpl. unfold stopConversation.
  destruct s as [[u [nx srcs act proc mic tm pp] e] sg ch ts dl sc ot op].
  simpl in Hact. subst act. by destruct proc, mic.
Qed.

Lemma stop_while_connecting_keeps_channel_witness :
  let s := run [ClickStart; MicGranted] initialSys in
  channelOpen (env (appState s)) = true
  /\ status (ui (appState (run [ClickStop; SessionResolved] s)))
     = DISCONNECTED
  /\ activeSessionRef (refs (appState (run [ClickStop; SessionResolved] s)))
     = true
  /\ channelOpen (env (appState (run [ClickStop; SessionResolved] s)))
     = true.
Proof.
  intros s.
  destruct (stop_while_connecting_keeps_channel s eq_refl eq_refl eq_refl)
    as (Hst & Hact & Hopen & _).
  split; [reflexivity|]. split; [exact Hst|]. split; [exact Hact|].
  exact Hopen.
Defined.

(** ** The visualizer of the user (line 341) *)

Lemma run_gateSynced (evs : list Event) :
  gateSynced (appState (run evs initialSys)).
Proof.
  apply (run_invariant (fun s => gateSynced (appState s)));
    [apply step_gateSynced | by split].
Qed.

(** Whenever the visualizer of the user is shown active, the frame
    captured at that moment passes the gate of line 134 and its send is
    requested (line 137 queues it on the session promise, which makes
    the call once the session is there): the indicator never animates
    while the microphone is gated off. *)
Theorem active_visualizer_means_gate_open (evs : list Event) (f : Frame) :
  let s := run evs initialSys in
  userVisualizerActive (appState s) = true ->
  sent (env (appState (step (AudioProcess f) s)))
  = sent (env (appState s)) ++ [Media f].
Proof.
  intros s Hactive. unfold userVisualizerActive in Hactive.
  apply andb_true_iff in Hactive as [Hconn Hmode].
  apply bool_decide_eq_true in Hconn.
  pose proof (connected_is_capturing evs Hconn) as Hcap. fold s in Hcap.
  rewrite step_AudioProcess, Hcap. simpl.
  rewrite (onaudioprocess_gate f (appState s) (run_gateSynced evs)).
  destruct (talkMode (ui (appState s))); simpl in *; [done|].
  by rewrite Hmode.
Qed.

Lemma active_visualizer_means_gate_open_witness :
  let evs := Scenario.connect ++ [ClickTalkMode PTT; PTTDown] in
  sent (env (appState (step (AudioProcess (mkFrame 0)) (run evs initialSys))))
  = [Media (mkFrame 0)].
Proof.
  intros evs.
  exact (active_visualizer_means_gate_open evs (mkFrame 0) eq_refl).
Defined.

(** The converse fails by design of line 134: in continuous mode a
    frame captured while the model speaks passes the gate and its send
    is requested like any other, although the visualizer of the user is
    shown idle. *)
Theorem continuous_gate_open_while_model_speaks (evs : list Event)
    (f : Frame) :
  let s := run evs initialSys in
  status (ui (appState s)) = CONNECTED ->
  talkMode (ui (appState s)) = CONTINUOUS ->
  isModelSpeaking (ui (appState s)) = true ->
  userVisualizerActive (appState s) = false
  /\ sent (env (appState (step (AudioProcess f) s)))
     = sent (env (appState s)) ++ [Media f].
Proof.
  intros s Hconn Hmode Hspeak. split.
  - unfold userVisualizerActive. rewrite Hmode, Hspeak. simpl.
    apply andb_false_r.
  - pose proof (connected_is_capturing evs Hconn) as Hcap. fold s in Hcap.
    rewrite step_AudioProcess, Hcap. simpl.
    rewrite (onaudioprocess_gate f (appState s) (run_gateSynced evs)).
    by rewrite Hmode.
Qed.

Lemma continuous_gate_open_while_model_speaks_witness :
  let evs :=
    Scenario.connect
    ++ [Tick 10;
        ChannelMessage (Scenario.audio [Scenario.chunkA])
          Scenario.clock Scenario.clock;
        Decoded 0] in
  userVisualizerActive (appState (run evs initialSys)) = false
  /\ sent (env (appState (step (AudioProcess (mkFrame 0))
                           (run evs initialSys))))
     = [Media (mkFrame 0)].
Proof.
  intros evs.
  exact (continuous_gate_open_while_model_speaks evs (mkFrame 0)
           eq_refl eq_refl eq_refl).
Defined.

(** ** Deliveries that do not overlap (lines 166-191) *)








(** ** The status indicator (StatusIndicator.tsx, lines 10-17) *)

(** The table has an entry for every status, so the destructuring of
    line 17 never fails, and no two statuses are shown alike: their
    labels differ and their colours differ. *)
Theorem statusIndicator_total_and_distinct (v : ConnectionStatus) :
  exists ind,
    statusIndicator v = Some ind
    /\ forall v' ind',
         statusIndicator v' = Some ind' ->
         label ind = label ind' \/ color ind = color ind' ->
         v = v'.
Proof.
  destruct v; eexists; (split; [vm_compute; reflexivity|]);
    intros v' ind' Hind' Hsame; destruct v'; try reflexivity;
    vm_compute in Hind'; injection Hind' as <-;
    destruct Hsame as [H|H]; vm_compute in H; discriminate.
Qed.

(** ** The transcript (ChatHistory.tsx, lines 47-90) *)

(** The placeholder is shown exactly when no bubble is: the transcript
    is never blank, and the placeholder never accompanies text.  There
    is one bubble per entry of the history and one per accumulator that
    is not empty. *)
Theorem placeholder_iff_no_bubble (msgs : list Message)
    (curIn curOut : jsstring) :
  (placeholder (chatHistory msgs curIn curOut) = true
   <-> bubbles (chatHistory msgs curIn curOut) = [])
  /\ length (bubbles (chatHistory msgs curIn curOut))
     = (length msgs + (if truthy curIn then 1 else 0)
        + (if truthy curOut then 1 else 0))%nat.
Proof.
  split.
  - unfold chatHistory. simpl.
    destruct msgs as [|m msgs], curIn as [|c curIn], curOut as [|d curOut];
      simpl; split; congruence.
  - unfold chatHistory. simpl. rewrite !length_app, length_map.
    destruct (truthy curIn), (truthy curOut); simpl; lia.
Qed.

(** A text that is submitted shows up as a finished bubble on the side
    of the user, after the bubbles of the history so far and before
    the bubbles of the turn in progress, which stay as they are. *)
Theorem submitted_text_in_transcript (w : WallClock) (st : App) :
  trim (textInput (ui st)) <> [] -> activeSessionRef (refs st) = true ->
  bubbles (chatView (handleSendText w st))
  = bubbles (chatHistory (messages (ui st)) [] [])
    ++ [mkBubble AtEnd (trim (textInput (ui st))) false]
    ++ bubbles (chatHistory [] (currentInput (ui st)) (currentOutput (ui st))).
Proof.
  intros Hne Hact. unfold handleSendText.
  apply truthy_true in Hne. rewrite Hne, Hact. simpl.
  unfold chatView, chatHistory. simpl.
  rewrite map_app. simpl. rewrite app_nil_r, <- app_assoc. reflexivity.
Qed.

Lemma submitted_text_in_transcript_witness :
  bubbles (chatView (handleSendText Scenario.clock
                       (appState Scenario.typed)))
  = [mkBubble AtEnd (lit "hi") false].
Proof.
  apply (submitted_text_in_transcript Scenario.clock
           (appState Scenario.typed)).
  - vm_compute. discriminate.
  - reflexivity.
Defined.

(** ** Persistence of the history (lines 52-76) *)

Lemma slice_last_nonempty {A} (n : nat) (l : list A) :
  (0 < n)%nat -> l <> [] -> slice_last n l <> [].
Proof.
  intros Hn Hl Hnil. apply (f_equal length) in Hnil.
  unfold slice_last in Hnil. rewrite length_drop in Hnil. simpl in Hnil.
  destruct l; [done|]. simpl in *. lia.
Qed.

Lemma onmessage_messages_cases (cl : Closure) (wu wm : WallClock)
    (msg : LiveServerMessage) (st : App) :
  messages (ui (onmessage cl wu wm msg st).1) = messages (ui st)
  \/ messages (ui (onmessage cl wu wm msg st).1) <> [].
Proof.
  unfold onmessage. rewrite audioLoop_messages. unfold onTurnComplete.
  destruct (sc_flag turnComplete msg);
    [|left; apply onTranscription_messages].
  destruct (truthy (cl_currentInput cl) || truthy (cl_currentOutput cl))
    eqn:Htext; [|left; apply onTranscription_messages].
  right. simpl. apply slice_last_nonempty; [lia|].
  intros Hnil. apply app_eq_nil in Hnil as [_ Hnil].
  unfold turnMessages in Hnil. apply orb_true_iff in Htext.
  destruct Htext as [Ht | Ht]; rewrite Ht in Hnil; [done|].
  by destruct (truthy (cl_currentInput cl)).
Qed.

Lemma handleSendText_messages_cases (w : WallClock) (st : App) :
  messages (ui (handleSendText w st)) = messages (ui st)
  \/ messages (ui (handleSendText w st)) <> [].
Proof.
  unfold handleSendText. destruct (_ || _); [by left|].
  right. simpl. intros Hnil. by apply app_eq_nil in Hnil as [_ Hnil].
Qed.

(** No event of the session empties a history that was not empty. *)
Lemma step_messages_cases (e : Event) (s : Sys) :
  messages (ui (appState (step e s))) = messages (ui (appState s))
  \/ messages (ui (appState (step e s))) <> [].
Proof.
  destruct e; try rewrite step_AudioProcess; simpl; case_matches;
    try (by left).
  - pose proof (onmessage_messages_cases c wu wm msg (appState s)) as H.
    by call_result H.
  - left. pose proof (resume_messages t (appState s)) as H. by call_result H.
  - left. pose proof (resume_messages t (appState s)) as H. by call_result H.
  - left. apply (stopConversation_messages (setStatus ERROR (appState s))).
  - left.
    apply (stopConversation_messages (setStatus DISCONNECTED (appState s))).
  - left. apply (onended_messages i (appState s)).
  - left. apply (onaudioprocess_messages f (appState s)).
  - left. apply stopConversation_messages.
  - apply (handleSendText_messages_cases w (appState s)).
Qed.

Lemma saveEffect_messages (p : Page) :
  pageMessages (saveEffect p) = pageMessages p.
Proof. unfold saveEffect. by destruct (decide _). Qed.

Lemma saveEffect_agrees (p : Page) :
  pageMessages p <> [] -> storageAgrees (saveEffect p).
Proof.
  intros Hne. unfold saveEffect.
  destruct (decide _) as [Hlen|Hlen]; [done|].
  destruct (pageMessages p); [done | simpl in Hlen; lia].
Qed.

Lemma mount_agrees (stored : option StoredItem) : storageAgrees (mount stored).
Proof.
  unfold mount. destruct stored as [[ms|]|]; try done.
  destruct ms as [|m ms]; [done|]. by apply saveEffect_agrees.
Qed.

Lemma pageStep_agrees (e : PageEvent) (p : Page) :
  storageAgrees p -> storageAgrees (pageStep e p).
Proof.
  intros Hp. unfold pageStep. destruct e as [e | confirmed].
  - destruct (decide _) as [Heq|Hne].
    + unfold storageAgrees, pageMessages in *. simpl in *.
      by rewrite Heq.
    + apply saveEffect_agrees.
      destruct (step_messages_cases e (pageSys p)) as [Hsame|Hne'];
        [done | exact Hne'].
  - destruct confirmed; simpl.
    + destruct (decide _); [done|]. done.
    + destruct (decide _); [exact Hp | done].
Qed.

Lemma pageRun_agrees (evs : list PageEvent) (p : Page) :
  storageAgrees p -> storageAgrees (pageRun evs p).
Proof.
  revert p. induction evs as [|e evs IH]; intros p Hp; [exact Hp|].
  simpl. by apply IH, pageStep_agrees.
Qed.

Lemma mount_messages (p : Page) :
  storageAgrees p -> pageMessages (mount (storage p)) = pageMessages p.
Proof.
  unfold storageAgrees, mount. intros Hp.
  rewrite saveEffect_messages. unfold loadEffect. simpl.
  destruct (storage p) as [[ms|]|]; simpl; by rewrite ?Hp.
Qed.

(** A reload restores the history.  Whatever the storage held when the
    component was mounted and whatever happened since (turns, typed
    texts, clearings), mounting the component again on the storage as
    it is yields the history as it is, entry for entry. *)
Theorem reload_restores_history (stored : option StoredItem)
    (evs : list PageEvent) :
  pageMessages (mount (storage (pageRun evs (mount stored))))
  = pageMessages (pageRun evs (mount stored)).
Proof. apply mount_messages, pageRun_agrees, mount_agrees. Qed.

(** A confirmed clearing empties the history and removes the stored
    item, and the saving effect of the render that follows does not
    write it back, so a reload shows an empty history; a declined
    clearing changes nothing. *)
Theorem clearHistory_clears_for_good (p : Page) :
  pageMessages (pageStep (ClickClear true) p) = []
  /\ storage (pageStep (ClickClear true) p) = None
  /\ pageMessages (mount (storage (pageStep (ClickClear true) p))) = []
  /\ pageStep (ClickClear false) p = p.
Proof.
  assert (Hclear : pageStep (ClickClear true) p
                   = mkPage (with_app (setMessages (fun _ => [])) (pageSys p))
                       None).
  { unfold pageStep. simpl. destruct (decide _); [done|].
    unfold saveEffect. destruct (decide _) as [Hlen|]; [|done].
    unfold pageMessages in Hlen. simpl in Hlen. lia. }
  rewrite Hclear. repeat split.
  unfold pageStep. simpl. by destruct (decide _).
Qed.

Lemma reload_restores_history_scenario :
  pageMessages
    (pageRun [SessionEvent ClickStart; SessionEvent MicGranted;
              SessionEvent ChannelOpen; SessionEvent SessionResolved;
              SessionEvent (TypeText (lit " hi "));
              SessionEvent (SubmitText Scenario.clock)]
       (mount (Some OtherText)))
  = [mkMessage (lit "1700000000000-tu") user (lit "hi")
       (lit "2023-11-14T22:13:20.000Z")].
Proof. reflexivity. Qed.

(** ** Leftover text of an earlier session (lines 98, 152-163) *)

Lemma audioLoop_texts (ps : list Part) (intr : bool) (st : App) :
  (messages (ui (audioLoop ps intr st).1),
   currentInput (ui (audioLoop ps intr st).1),
   currentOutput (ui (audioLoop ps intr st).1))
  = (messages (ui st), currentInput (ui st), currentOutput (ui st)).
Proof.
  rewrite audioLoop_state.
  destruct (audioLoop ps intr st).2; [reflexivity | | reflexivity].
  destruct intr; reflexivity.
Qed.

(** Text that the accumulators hold when a session is started, the
    remains of a session that ended in the middle of a turn, is what
    the first turn completion of the new session records, whatever
    the message carries: the texts are those of the render in which
    the start button was clicked. *)
Theorem leftover_text_is_recorded (s : Sys) (msg : LiveServerMessage)
    (wu wm : WallClock) :
  startShown (appState s) = true ->
  sc_flag turnComplete msg = true ->
  currentInput (ui (appState s)) <> []
  \/ currentOutput (ui (appState s)) <> [] ->
  let s' := run [ClickStart; MicGranted; ChannelMessage msg wu wm] s in
  messages (ui (appState s'))
  = slice_last 50
      (messages (ui (appState s))
       ++ turnMessages (currentInput (ui (appState s)))
            (currentOutput (ui (appState s))) wu wm)
  /\ currentInput (ui (appState s')) = []
  /\ currentOutput (ui (appState s')) = [].
Proof.
  intros Hshown Hflag Htext s'.
  assert (Hs' : appState s'
                = (onmessage (closure_of (appState s)) wu wm msg
                     (startConversation_connect
                        (startConversation_begin (appState s)))).1).
  { subst s'. unfold run. simpl. rewrite Hshown. simpl.
    by destruct (onmessage _ _ _ _ _). }
  rewrite Hs'. unfold onmessage.
  pose proof (audioLoop_texts (messageParts msg) (sc_flag interrupted msg)
                (onTurnComplete (closure_of (appState s)) wu wm msg
                   (onTranscription msg
                      (startConversation_connect
                         (startConversation_begin (appState s))))))
    as Htexts.
  injection Htexts as -> -> ->.
  destruct (onTurnComplete_effect (closure_of (appState s)) wu wm msg
              (onTranscription msg
                 (startConversation_connect
                    (startConversation_begin (appState s)))) Hflag)
    as (Hmsgs & Hin & Hout).
  assert (Htruthy : truthy (currentInput (ui (appState s)))
                    || truthy (currentOutput (ui (appState s))) = true).
  { apply orb_true_iff. rewrite !truthy_true. exact Htext. }
  simpl in Hmsgs. rewrite Htruthy, onTranscription_messages in Hmsgs.
  by rewrite Hmsgs, Hin, Hout.
Qed.

Lemma leftover_text_is_recorded_witness :
  let s := run [ClickStop] Scenario.midTurn in
  messages
    (ui (appState
           (run [ClickStart; MicGranted;
                 ChannelMessage Scenario.turnCompleteSignal Scenario.clock
                   Scenario.clock] s)))
  = [mkMessage (lit "1700000000000-u") user (lit "hello")
       (lit "2023-11-14T22:13:20.000Z");
     mkMessage (lit "1700000000000-m") model (lit "hi there")
       (lit "2023-11-14T22:13:20.000Z")].
Proof.
  intros s.
  apply (leftover_text_is_recorded s Scenario.turnCompleteSignal
           Scenario.clock Scenario.clock eq_refl eq_refl).
  left. discriminate.
Defined.

(** ** Transcript fragments across deliveries (lines 144-149) *)

(** Fragments that arrive in successive deliveries, each delivery
    carrying a fragment of one side, accumulate side by side: each
    accumulator is extended by the fragments of its side, in arrival
    order, and the fragments of the other side do not touch it. *)
Theorem fragments_accumulate_by_side (fs : list (bool * jsstring))
    (st : App) :
  let deliver st (f : bool * jsstring) :=
    onTranscription
      (mkLiveServerMessage
         (Some (if f.1
                then mkServerContent (Some (mkTranscription f.2)) None false
                       None false
                else mkServerContent None (Some (mkTranscription f.2)) false
                       None false)))
      st in
  currentOutput (ui (foldl deliver st fs))
  = currentOutput (ui st) ++ concat (filter (fun f => f.1 = true) fs).*2
  /\ currentInput (ui (foldl deliver st fs))
     = currentInput (ui st) ++ concat (filter (fun f => f.1 = false) fs).*2.
Proof.
  intros deliver. revert st. induction fs as [|[b t] fs IH]; intros st.
  - simpl. by rewrite !app_nil_r.
  - simpl foldl. destruct (IH (deliver st (b, t))) as [Hout Hin].
    rewrite Hout, Hin. destruct b.
    + rewrite (filter_cons_True (fun f => f.1 = true)) by reflexivity.
      rewrite (filter_cons_False (fun f => f.1 = false))
        by (simpl; congruence).
      simpl. by rewrite <- app_assoc.
    + rewrite (filter_cons_False (fun f => f.1 = true))
        by (simpl; congruence).
      rewrite (filter_cons_True (fun f => f.1 = false)) by reflexivity.
      simpl. by rewrite <- app_assoc.
Qed.

(** ** Blank text (line 233) *)

Lemma trimStart_blank (s : jsstring) :
  Forall (fun c => isWhiteSpace c = true) s -> trimStart s = [].
Proof.
  induction 1 as [|c s Hc _ IH]; [done|]. simpl. by rewrite Hc.
Qed.

(** A text made of white space only (the empty text included) is
    neither recorded nor sent, in whatever state it is submitted. *)
Theorem blank_text_is_not_sent (w : WallClock) (st : App) :
  Forall (fun c => isWhiteSpace c = true) (textInput (ui st)) ->
  handleSendText w st = st.
Proof.
  intros Hblank. unfold handleSendText, trim.
  by rewrite (trimStart_blank _ Hblank).
Qed.

Lemma blank_text_is_not_sent_witness :
  let st := appState (run [TypeText (lit "   ")] Scenario.connected) in
  handleSendText Scenario.clock st = st.
Proof.
  intros st. apply blank_text_is_not_sent.
  repeat constructor.
Defined.

(** ** The set of active sources (lines 187-189, 91, 195) *)

(** Along every run, every member of [sourcesRef] is a node of the
    table that was started: the [stop()] of lines 91 and 195 never
    throws on it, and the [catch] around it is never entered. *)
Theorem active_sources_are_started (evs : list Event) (i : nat) :
  i ∈ sourcesRef (refs (appState (run evs initialSys))) ->
  exists n,
    nodes (env (appState (run evs initialSys))) !! i = Some n
    /\ is_Some (startedAt n)
    /\ is_Some (node_stop n).
Proof.
  intros Hin. destruct (run_sane evs) as (_ & Hsrc & _).
  destruct (Hsrc i Hin) as (n & Hn & [when Hstarted]).
  exists n. split; [exact Hn|]. split; [by eexists|].
  unfold node_stop. rewrite Hstarted. by eexists.
Qed.

Lemma active_sources_are_started_witness :
  exists n,
    nodes (env (appState Scenario.playing)) !! 0%nat = Some n
    /\ is_Some (startedAt n)
    /\ is_Some (node_stop n).
Proof.
  apply (active_sources_are_started
           (Scenario.connect
            ++ [Tick 10;
                ChannelMessage (Scenario.audio [Scenario.chunkA])
                  Scenario.clock Scenario.clock;
                Decoded 0]) 0).
  vm_compute. set_solver.
Defined.

(** ** Decodes in flight at a reset (lines 177-189, 93, 197) *)

Lemma step_Decoded_plays (s : Sys) (h : nat) (t : Task) (b : AudioBuffer) :
  tasks s !! h = Some t -> decodeAudioData (awaiting t) = Some b ->
  exists n,
    nodes (env (appState (step (Decoded h) s)))
      !! length (nodes (env (appState s))) = Some n
    /\ buffer n = b
    /\ startedAt n = Some (nextStartTimeRef (refs (appState s))).
Proof.
  intros Ht Hb.
  assert (Hst : appState (step (Decoded h) s)
                = (audioLoop (remaining t) (then_interrupted t)
                     (playBuffer b (appState s))).1).
  { simpl. rewrite Ht. unfold resume. rewrite Hb.
    by destruct (audioLoop _ _ _). }
  rewrite Hst.
  destruct (audioLoop_continue (remaining t) (then_interrupted t)
              (playBuffer b (appState s))
              (length (nodes (env (appState s))))
              (mkSourceNode b (Some (nextStartTimeRef (refs (appState s))))
                 false))
    as (n & Hn & Hbuf & Hstart & _).
  - simpl. rewrite lookup_app_r, Nat.sub_diag by lia. reflexivity.
  - exists n. by repeat split.
Qed.

(** Neither an interruption nor the stop button cancels a decode that
    is in flight: when the decode settles afterwards, its buffer is
    still handed to a new source, which is started with the cursor as
    the reset left it, at 0. *)
Theorem decode_in_flight_survives_reset (s : Sys) (e : Event) (h : nat)
    (t : Task) (b : AudioBuffer) :
  (e = ClickStop /\ startShown (appState s) = false)
  \/ ((exists wu wm, e = ChannelMessage Scenario.interruptedSignal wu wm)
      /\ is_Some (channel s) /\ (h < length (delivered s))%nat) ->
  tasks s !! h = Some t ->
  decodeAudioData (awaiting t) = Some b ->
  exists n,
    nodes (env (appState (run [e; Decoded h] s)))
      !! length (nodes (env (appState s))) = Some n
    /\ buffer n = b
    /\ startedAt n = Some 0.
Proof.
  intros Hcase Ht Hb.
  assert (Hreset : tasks (step e s) !! h = Some t
                   /\ nextStartTimeRef (refs (appState (step e s))) = 0
                   /\ length (nodes (env (appState (step e s))))
                      = length (nodes (env (appState s)))).
  { destruct Hcase as [[-> Hshown] | [(wu & wm & ->) [[cl Hch] Hlt]]].
    - simpl. rewrite Hshown. simpl. split; [exact Ht|].
      destruct (stopConversation_resets (appState s)) as (_ & _ & Hcur & _).
      split; [exact Hcur|]. unfold stopConversation.
      destruct (appState s) as [u [nx srcs act proc mic tm pp] en].
      destruct act, proc, mic; apply stopAll_length.
    - simpl. rewrite Hch. simpl.
      split; [rewrite lookup_delete_ne by lia; exact Ht|].
      split; [reflexivity | apply stopAll_length]. }
  destruct Hreset as (Ht' & Hcur & Hlen).
  destruct (step_Decoded_plays (step e s) h t b Ht' Hb)
    as (n & Hn & Hbuf & Hstart).
  exists n. rewrite Hlen, Hcur in *. by repeat split.
Qed.

Lemma decode_in_flight_survives_reset_witness :
  let s :=
    run [Tick 10;
         ChannelMessage (Scenario.audio [Scenario.chunkA])
           Scenario.clock Scenario.clock]
      Scenario.connected in
  exists n,
    nodes (env (appState (run [ClickStop; Decoded 0] s))) !! 0%nat = Some n
    /\ buffer n = Scenario.bufferA
    /\ startedAt n = Some 0.
Proof.
  intros s.
  apply (decode_in_flight_survives_reset s ClickStop 0
           (mkTask Scenario.chunkA [] false) Scenario.bufferA).
  - left. split; reflexivity.
  - reflexivity.
  - reflexivity.
Defined.

(** ** What is sent, and when (lines 133-139, 231-245) *)

Lemma audioLoop_session (ps : list Part) (intr : bool) (st : App) :
  activeSessionRef (refs (audioLoop ps intr st).1) = activeSessionRef (refs st).
Proof.
  rewrite audioLoop_state.
  destruct (audioLoop ps intr st).2; [reflexivity | | reflexivity].
  destruct intr; reflexivity.
Qed.

Lemma onmessage_session (cl : Closure) (wu wm : WallClock)
    (msg : LiveServerMessage) (st : App) :
  activeSessionRef (refs (onmessage cl wu wm msg st).1)
  = activeSessionRef (refs st).
Proof.
  unfold onmessage. rewrite audioLoop_session.
  case_accounting cl msg; reflexivity.
Qed.

Lemma resume_session (t : Task) (st : App) :
  activeSessionRef (refs (resume t st).1) = activeSessionRef (refs st).
Proof.
  unfold resume. destruct (decodeAudioData (awaiting t)); [|reflexivity].
  by rewrite audioLoop_session.
Qed.

Lemma stopConversation_off (st : App) :
  (activeSessionRef (refs (stopConversation st)) = true -> False)
  /\ (capturing (env (stopConversation st)) = true ->
      capturing (env st) = true).
Proof.
  unfold stopConversation.
  destruct st as [u [nx srcs act proc mic tm pp] e].
  destruct act, proc, mic; simpl; split; try done.
Qed.

Lemma onended_session (i : nat) (st : App) :
  activeSessionRef (refs (onended i st)) = activeSessionRef (refs st).
Proof. unfold onended. destruct (decide _); reflexivity. Qed.

Lemma onaudioprocess_session (f : Frame) (st : App) :
  activeSessionRef (refs (onaudioprocess f st)) = activeSessionRef (refs st).
Proof. unfold onaudioprocess. destruct (_ || _); reflexivity. Qed.

Lemma handleSendText_session (w : WallClock) (st : App) :
  activeSessionRef (refs (handleSendText w st)) = activeSessionRef (refs st).
Proof. unfold handleSendText. destruct (_ || _); reflexivity. Qed.

(** The capture is turned on by the opening of the channel only, and
    the session handle is stored by the resolution of the session
    only. *)
Lemma heldCells_capturing (st st' : App) :
  heldCells st' = heldCells st -> capturing (env st') = capturing (env st).
Proof. intros Heq. by injection Heq. Qed.

Lemma step_turns_on (e : Event) (s : Sys) :
  (capturing (env (appState (step e s))) = true ->
   capturing (env (appState s)) = true \/ e = ChannelOpen)
  /\ (activeSessionRef (refs (appState (step e s))) = true ->
      activeSessionRef (refs (appState s)) = true \/ e = SessionResolved).
Proof.
  assert (Hkeep : forall st' : App,
            capturing (env st') = capturing (env (appState s)) ->
            activeSessionRef (refs st') = activeSessionRef (refs (appState s)) ->
            (capturing (env st') = true ->
             capturing (env (appState s)) = true \/ e = ChannelOpen)
            /\ (activeSessionRef (refs st') = true ->
                activeSessionRef (refs (appState s)) = true
                \/ e = SessionResolved)).
  { intros st' Hc Hs. rewrite Hc, Hs. split; by left. }
  assert (Hstop : forall st0 : App,
            capturing (env st0) = capturing (env (appState s)) ->
            (capturing (env (stopConversation st0)) = true ->
             capturing (env (appState s)) = true \/ e = ChannelOpen)
            /\ (activeSessionRef (refs (stopConversation st0)) = true ->
                activeSessionRef (refs (appState s)) = true
                \/ e = SessionResolved)).
  { intros st0 Hc0. destruct (stopConversation_off st0) as [Hoff Hcap].
    split; intros H; [left; rewrite <- Hc0; by apply Hcap | by destruct (Hoff H)]. }
  destruct e.
  - simpl. destruct (startShown (appState s)); by apply Hkeep.
  - simpl. destruct (starting s) as [[cl|]|]; by apply Hkeep.
  - simpl. destruct (starting s); by apply Hkeep.
  - simpl. destruct (starting s) as [[cl|]|]; try by apply Hkeep.
    split; intros H; [by left | by right].
  - simpl. destruct (channel s); [|by apply Hkeep].
    split; intros H; [by right | by left].
  - simpl. destruct (channel s) as [cl|]; [|by apply Hkeep].
    pose proof (heldCells_capturing _ _
                  (onmessage_heldCells cl wu wm msg (appState s))) as Hc.
    pose proof (onmessage_session cl wu wm msg (appState s)) as Hs.
    destruct (onmessage cl wu wm msg (appState s)). by apply Hkeep.
  - simpl. destruct (tasks s !! h) as [t|]; [|by apply Hkeep].
    pose proof (heldCells_capturing _ _ (resume_heldCells t (appState s)))
      as Hc.
    pose proof (resume_session t (appState s)) as Hs.
    destruct (resume t (appState s)). by apply Hkeep.
  - simpl. destruct (channel s); [|by apply Hkeep].
    by apply (Hstop (setStatus ERROR (appState s))).
  - simpl. destruct (channel s); [|by apply Hkeep].
    by apply (Hstop (setStatus DISCONNECTED (appState s))).
  - simpl. destruct (decide _); [|by apply Hkeep].
    apply Hkeep;
      [apply heldCells_capturing, onended_heldCells | apply onended_session].
  - assert (Hst : appState (step (AudioProcess f) s) = appState s
                  \/ appState (step (AudioProcess f) s)
                     = onaudioprocess f (appState s)).
    { rewrite step_AudioProcess.
      destruct (capturing (env (appState s)) || opened s);
        [by right | by left]. }
    destruct Hst as [-> | ->]; [by apply Hkeep|].
    apply Hkeep;
      [apply heldCells_capturing, onaudioprocess_heldCells
      | apply onaudioprocess_session].
  - simpl. destruct (startShown (appState s)); [by apply Hkeep|].
    by apply Hstop.
  - simpl. by apply Hkeep.
  - simpl. destruct (_ || _); by apply Hkeep.
  - simpl. destruct (_ || _); by apply Hkeep.
  - simpl. destruct (startShown (appState s)); by apply Hkeep.
  - simpl. destruct (startShown (appState s)); [by apply Hkeep|].
    apply Hkeep;
      [apply heldCells_capturing, handleSendText_heldCells
      | apply handleSendText_session].
  - simpl. by apply Hkeep.
  - simpl. destruct (others s !! k); by apply Hkeep.
Qed.

(** A script processor is created by the opening of a channel only. *)
Lemma step_opened (e : Event) (s : Sys) :
  opened (step e s) = true -> opened s = true \/ e = ChannelOpen.
Proof.
  destruct e; try rewrite step_AudioProcess; simpl; case_matches; simpl;
    auto.
Qed.

Lemma onaudioprocess_sent_cases (f : Frame) (st : App) :
  sent (env (onaudioprocess f st)) = sent (env st)
  \/ sent (env (onaudioprocess f st)) = sent (env st) ++ [Media f].
Proof. unfold onaudioprocess. destruct (_ || _); [by right | by left]. Qed.

Lemma handleSendText_sent_cases (w : WallClock) (st : App) :
  sent (env (handleSendText w st)) = sent (env st)
  \/ exists t, activeSessionRef (refs st) = true
       /\ sent (env (handleSendText w st)) = sent (env st) ++ [Text t].
Proof.
  unfold handleSendText.
  destruct (negb (truthy (trim (textInput (ui st))))); [by left|].
  destruct (activeSessionRef (refs st)); [|by left].
  right. eexists. split; reflexivity.
Qed.

(** What an event adds to what was sent: a frame, when a script
    processor exists; the text of a submission, when the session handle
    is held. *)
Lemma step_sent_cases (e : Event) (s : Sys) :
  sent (env (appState (step e s))) = sent (env (appState s))
  \/ (exists f, capturing (env (appState s)) || opened s = true
        /\ sent (env (appState (step e s)))
           = sent (env (appState s)) ++ [Media f])
  \/ (exists t, activeSessionRef (refs (appState s)) = true
        /\ sent (env (appState (step e s)))
           = sent (env (appState s)) ++ [Text t]).
Proof.
  destruct e; try rewrite step_AudioProcess; simpl; case_matches;
    try (by left).
  - left. pose proof (onmessage_sent c wu wm msg (appState s)) as H.
    by call_result H.
  - left. pose proof (resume_sent t (appState s)) as H. by call_result H.
  - left. pose proof (resume_sent t (appState s)) as H. by call_result H.
  - left. apply (stopConversation_sent (setStatus ERROR (appState s))).
  - left. apply (stopConversation_sent (setStatus DISCONNECTED (appState s))).
  - left. apply (onended_sent i (appState s)).
  - destruct (onaudioprocess_sent_cases f (appState s)) as [H | H];
      [by left|]. right. left. by exists f.
  - left. apply stopConversation_sent.
  - destruct (handleSendText_sent_cases w (appState s)) as [H | H];
      [by left | by right; right].
Qed.

(** Nothing is sent too early.  Along every run from the initial
    state, a captured frame is on the list of what was sent only if
    the channel opened during the run, and a typed text only if the
    session resolved during the run. *)
Theorem nothing_is_sent_too_early (evs : list Event) :
  (forall f, Media f ∈ sent (env (appState (run evs initialSys))) ->
             ChannelOpen ∈ evs)
  /\ (forall t, Text t ∈ sent (env (appState (run evs initialSys))) ->
                SessionResolved ∈ evs).
Proof.
  assert (Hinv :
    (capturing (env (appState (run evs initialSys)))
     || opened (run evs initialSys) = true ->
     ChannelOpen ∈ evs)
    /\ (activeSessionRef (refs (appState (run evs initialSys))) = true ->
        SessionResolved ∈ evs)
    /\ (forall f, Media f ∈ sent (env (appState (run evs initialSys))) ->
                  ChannelOpen ∈ evs)
    /\ (forall t, Text t ∈ sent (env (appState (run evs initialSys))) ->
                  SessionResolved ∈ evs)).
  { induction evs as [|e evs IH] using rev_ind.
    - simpl. repeat split; try discriminate; intros x Hx; by inversion Hx.
    - rewrite run_app. cbn [run foldl].
      destruct IH as (Hcap & Hses & Hmedia & Htext).
      destruct (step_turns_on e (run evs initialSys)) as [Hon1 Hon2].
      assert (Hcap' : capturing (env (appState (step e (run evs initialSys))))
                      || opened (step e (run evs initialSys))
                      = true -> ChannelOpen ∈ evs ++ [e]).
      { intros H. apply elem_of_app. apply orb_true_iff in H as [H | H].
        - destruct (Hon1 H) as [H0 | ->]; [left | right; by left].
          apply Hcap. by rewrite H0.
        - destruct (step_opened _ _ H) as [H0 | ->]; [left | right; by left].
          apply Hcap. rewrite H0. apply orb_true_r. }
      assert (Hses' : activeSessionRef
                        (refs (appState (step e (run evs initialSys))))
                      = true -> SessionResolved ∈ evs ++ [e]).
      { intros H. apply elem_of_app. destruct (Hon2 H) as [H0 | ->];
          [left; by apply Hses | right; by left]. }
      split; [exact Hcap'|]. split; [exact Hses'|].
      destruct (step_sent_cases e (run evs initialSys))
        as [Heq | [(f0 & Hc & Heq) | (t0 & Ha & Heq)]]; rewrite Heq.
      + split; intros x Hx; apply elem_of_app; left; eauto.
      + split; intros x Hx; apply elem_of_app; left;
          apply elem_of_app in Hx as [Hx | Hx]; eauto.
        by apply list_elem_of_singleton in Hx.
      + split; intros x Hx; apply elem_of_app; left;
          apply elem_of_app in Hx as [Hx | Hx]; eauto.
        by apply list_elem_of_singleton in Hx. }
  destruct Hinv as (_ & _ & Hmedia & Htext). by split.
Qed.
